(** * LearnTA: nondeterminism merging and imprecise-clock guard relaxation

    A shallow embedding of

    - [TAState::deterministic] and [TAState::mergeNondeterministicBranching]
      (src/timed_automaton.cc), and
    - [ImpreciseClockHandler::handleOne] and [ImpreciseClockHandler::run]
      (include/imprecise_clock_handler.hh),

    together with the properties of these operations.

    States live in an arena ([heap]) and a [TAState *] is an index into
    it.  The guard algebra ([satisfiable], [conjunction], [isWeaker],
    [unionHull]) and the class [NeighborConditions] are declared in headers
    outside the two files embedded here; the operations are therefore
    taken through the interfaces [GuardOps] and [NeighborOps], and every
    general statement holds for all implementations of them. *)

From Stdlib Require Import ZArith QArith Qround Bool Ascii Lia.
From stdpp Require Import base option list gmap strings.
From Equations Require Import Equations.
From Equations.Prop Require Import Logic.

Close Scope Q_scope.
Local Open Scope nat_scope.

(** ** Data model *)

Definition ClockVariables := nat.
Definition Alphabet := ascii.

(** Modelled from the spec: [struct Constraint] (constraint.hh is absent).
    The sources use the member [x], the method [isUpperBound] and build
    constraints as [x >= SA], [z < TRTT], [y <= SA]: a constraint is the
    single-clock inequality [x_i |> c] with an order and an integer
    constant; it is an upper bound when the order is [<] or [<=]. *)
Module Constraint.
Inductive Order := lt | le | ge | gt.

Record t := mk { x : ClockVariables; odr : Order; c : Z }.

Definition isUpperBound (k : t) : bool :=
  match odr k with
  | lt | le => true
  | ge | gt => false
  end.

Definition Order_eqb (a b : Order) : bool :=
  match a, b with
  | lt, lt | le, le | ge, ge | gt, gt => true
  | _, _ => false
  end.

Definition eqb (a b : t) : bool :=
  Nat.eqb (x a) (x b) && Order_eqb (odr a) (odr b) && Z.eqb (c a) (c b).
End Constraint.

Definition Constraint := Constraint.t.
Definition Guard := list Constraint.

(** [std::variant<double, ClockVariables>]: alternative 0 is a constant,
    alternative 1 is the clock whose value is copied.  The constants are
    only compared with [0.0] and with their own [std::floor]; they are
    modelled by rationals. *)
Inductive ResetValue :=
| RConst (d : Q)
| RClock (y : ClockVariables).

Definition index (v : ResetValue) : nat :=
  match v with
  | RConst _ => 0
  | RClock _ => 1
  end.

Definition Resets := list (ClockVariables * ResetValue).

(** A [TAState *] is the position of the state in the arena. *)
Definition StatePtr := nat.

Module TATransition.
Record t := mk { target : StatePtr; resetVars : Resets; guard : Guard }.
End TATransition.

Definition TATransition := TATransition.t.

Module TAState.
(** [next] is an [unordered_map<Alphabet, vector<TATransition>>]; it is
    kept as the list of its entries, in the order the iteration visits
    them. *)
Record t := mk { isMatch : bool; next : list (Alphabet * list TATransition) }.
End TAState.

Definition TAState := TAState.t.
Definition heap := list TAState.

(** Dereferencing a state pointer.  Pointers are expected to be valid; an
    index outside the arena reads a non-accepting state without
    transitions. *)
Definition deref (h : heap) (p : StatePtr) : TAState :=
  default (TAState.mk false []) (h !! p).

(** *** Value equality of transitions *)

Definition ResetValue_eqb (a b : ResetValue) : bool :=
  match a, b with
  | RConst d, RConst e => Qeq_bool d e
  | RClock y, RClock z => Nat.eqb y z
  | _, _ => false
  end.

Fixpoint list_eqb {A} (eqb : A -> A -> bool) (l k : list A) : bool :=
  match l, k with
  | [], [] => true
  | a :: l', b :: k' => eqb a b && list_eqb eqb l' k'
  | _, _ => false
  end.

(** Modelled from the spec: [TATransition::operator==] (timed_automaton.hh
    is absent).  A transition is the triple (target state, reset map,
    guard); two transitions are equal when the three members are. *)
Definition TATransition_eqb (a b : TATransition) : bool :=
  Nat.eqb (TATransition.target a) (TATransition.target b)
  && list_eqb (fun p q => Nat.eqb (fst p) (fst q) && ResetValue_eqb (snd p) (snd q))
       (TATransition.resetVars a) (TATransition.resetVars b)
  && list_eqb Constraint.eqb (TATransition.guard a) (TATransition.guard b).

(** ** The guard algebra, as an interface *)

Class GuardOps := {
  satisfiable : Guard -> bool;
  conjunction : Guard -> Guard -> Guard;
  isWeaker : Guard -> Guard -> bool;
  unionHull : list Guard -> Guard
}.

(** Two transitions are jointly satisfiable when the conjunction of their
    guards is. *)
Definition overlap {G : GuardOps} (a b : TATransition) : bool :=
  satisfiable (conjunction (TATransition.guard a) (TATransition.guard b)).

(** ** [TAState::deterministic] *)

Section Deterministic.
Context {G : GuardOps}.

(** The body of the lambda: [seen] holds the transitions in
    [[transitions.begin(), it)], [ts] those from [it] on. *)
Fixpoint deterministicFrom (seen ts : list TATransition) : bool :=
  match ts with
  | [] => true
  | it :: rest =>
      if existsb (fun transition =>
                    satisfiable (conjunction (TATransition.guard transition)
                                             (TATransition.guard it))) seen
      then false
      else deterministicFrom (seen ++ [it]) rest
  end.

Definition deterministic (s : TAState) : bool :=
  forallb (fun pair => deterministicFrom [] (snd pair)) (TAState.next s).

(** The method is [const]: called on the state at [p], it answers and
    hands the arena back. *)
Definition call_deterministic (p : StatePtr) (h : heap) : bool * heap :=
  (deterministic (deref h p), h).
End Deterministic.

(** ** [TAState::mergeNondeterministicBranching] *)

(** The outcome of an operation that contains an [assert]: a failing
    assertion aborts the run.  Whether the assertion is compiled in is
    decided by the build, see [NDEBUG] below. *)
Inductive outcome (A : Type) :=
| Done (a : A)
| AssertionFailure.
Arguments Done {A} a.
Arguments AssertionFailure {A}.

#[global] Instance outcome_bind : MBind outcome := fun A B k m =>
  match m with
  | Done a => k a
  | AssertionFailure => AssertionFailure
  end.

Section Merge.
Context {G : GuardOps}.
(** [TATransition::impreciseConstantAssignSize], declared in
    timed_automaton.hh (absent), is a parameter. *)
Variable impreciseConstantAssignSize : Resets -> nat.
(** The arena the targets point into; only [isMatch] is read. *)
Variable h : heap.
(** Whether the macro [NDEBUG] is defined in the build: [assert] then
    expands to nothing, and its argument is not evaluated. *)
Variable NDEBUG : bool.

(** The predicate of the [std::any_of] of the first loop. *)
Definition removable (it2 : TATransition) (transitions : list TATransition) : bool :=
  existsb (fun transition =>
             negb (TATransition_eqb it2 transition)
             && isWeaker (TATransition.guard transition) (TATransition.guard it2)
             && Nat.eqb (TATransition.target transition) (TATransition.target it2))
          transitions.

(** "Remove weaker guards": [kept] is [[begin, it2)], [rest] is
    [[it2, end)]; the vector is [kept ++ rest]. *)
Fixpoint removeWeaker (kept rest : list TATransition) : list TATransition :=
  match rest with
  | [] => kept
  | it2 :: rest' =>
      if removable it2 (kept ++ it2 :: rest')
      then removeWeaker kept rest'
      else removeWeaker (kept ++ [it2]) rest'
  end.

(** The assignments to [*it2] once the two guards are found jointly
    satisfiable. *)
Definition mergeInto (it2 it3 : TATransition) : TATransition :=
  let guards := [TATransition.guard it2; TATransition.guard it3] in
  if impreciseConstantAssignSize (TATransition.resetVars it2)
     <? impreciseConstantAssignSize (TATransition.resetVars it3)
  then TATransition.mk (TATransition.target it3) (TATransition.resetVars it3)
                       (unionHull guards)
  else TATransition.mk (TATransition.target it2) (TATransition.resetVars it2)
                       (unionHull guards).

Definition sameAcceptance (it2 it3 : TATransition) : bool :=
  Bool.eqb (TAState.isMatch (deref h (TATransition.target it2)))
           (TAState.isMatch (deref h (TATransition.target it3))).

(** The inner loop over [it3]: returns the final [*it2] and what is left
    of [[next(it2), end)].  The [assert] stops the run only in a build
    without [NDEBUG]. *)
Fixpoint absorb (it2 : TATransition) (rest : list TATransition)
  : outcome (TATransition * list TATransition) :=
  match rest with
  | [] => Done (it2, [])
  | it3 :: rest' =>
      if satisfiable (conjunction (TATransition.guard it2) (TATransition.guard it3))
      then
        if NDEBUG || sameAcceptance it2 it3
        then absorb (mergeInto it2 it3) rest'
        else AssertionFailure
      else
        r ← absorb it2 rest';
        Done (fst r, it3 :: snd r)
  end.

(** The outer loop over [it2]. *)
Equations? mergeLoop (ts : list TATransition) : outcome (list TATransition)
  by wf (length ts) lt :=
  mergeLoop [] := Done [];
  mergeLoop (it2 :: rest) with inspect (absorb it2 rest) => {
    | exist _ AssertionFailure _ := AssertionFailure;
    | exist _ (Done r) Habs :=
        out ← mergeLoop (snd r); Done (fst r :: out) }.
Proof.
  clear mergeLoop.
  enough (Hlen : forall k a r', absorb a k = Done r' ->
                                length (snd r') <= length k)
    by (specialize (Hlen _ _ _ Habs); simpl in Hlen; lia).
  intros k; induction k as [|b k IH]; intros a r'; simpl.
  - intros [= <-]. simpl. lia.
  - destruct (satisfiable _).
    + destruct (NDEBUG || sameAcceptance a b); [|discriminate].
      intros Hr. specialize (IH _ _ Hr). lia.
    + destruct (absorb a k) as [q|] eqn:E; simpl; [|discriminate].
      intros [= <-]. simpl. specialize (IH _ _ E). lia.
Qed.

(** The body of the loop over [this->next], entry by entry. *)
Fixpoint mergeEntries (entries : list (Alphabet * list TATransition))
  : outcome (list (Alphabet * list TATransition)) :=
  match entries with
  | [] => Done []
  | entry :: entries' =>
      transitions ← mergeLoop (removeWeaker [] (snd entry));
      merged ← mergeEntries entries';
      Done ((fst entry, transitions) :: merged)
  end.

(** The method, called on the state at [p]: the arena with the rewritten
    transition table, unless an assertion fails. *)
Definition mergeNondeterministicBranching (p : StatePtr) : outcome heap :=
  let this := deref h p in
  merged ← mergeEntries (TAState.next this);
  Done (<[p := TAState.mk (TAState.isMatch this) merged]> h).

(** The pairs [( *it2, *it3 )] that the second loop compares, with the
    value [*it2] has at the moment of the comparison. *)
Inductive comparesInner : TATransition -> list TATransition ->
                          TATransition -> TATransition -> Prop :=
| cmp_here it2 it3 rest :
    comparesInner it2 (it3 :: rest) it2 it3
| cmp_after_skip it2 it3 rest a b :
    satisfiable (conjunction (TATransition.guard it2) (TATransition.guard it3)) = false ->
    comparesInner it2 rest a b ->
    comparesInner it2 (it3 :: rest) a b
| cmp_after_merge it2 it3 rest a b :
    satisfiable (conjunction (TATransition.guard it2) (TATransition.guard it3)) = true ->
    NDEBUG || sameAcceptance it2 it3 = true ->
    comparesInner (mergeInto it2 it3) rest a b ->
    comparesInner it2 (it3 :: rest) a b.

Inductive compares : list TATransition -> TATransition -> TATransition -> Prop :=
| cmp_first it2 rest a b :
    comparesInner it2 rest a b ->
    compares (it2 :: rest) a b
| cmp_later it2 rest r a b :
    absorb it2 rest = Done r ->
    compares (snd r) a b ->
    compares (it2 :: rest) a b.
End Merge.

(** ** A guard algebra over intervals *)

(** Modelled from the spec: the guard algebra of constraint.hh (absent).
    A guard is the conjunction of its constraints over non-negative clocks;
    [satisfiable] says that the conjunction is non-empty, [conjunction] is
    the union of the two constraint sets, [isWeaker gA gB] holds iff every
    valuation satisfying [gB] satisfies [gA], and [unionHull] is the
    smallest guard that covers the union of the given guards.  With
    single-clock constraints a guard is a box, one interval per clock, and
    the four operations are computed on the interval bounds. *)
Module IntervalGuards.
(** A bound is its constant and whether it is strict. *)
Definition Bound := (Z * bool)%type.

(** The tighter of two lower bounds and of two upper bounds. *)
Definition maxLower (a b : Bound) : Bound :=
  if (fst a <? fst b)%Z then b
  else if (fst b <? fst a)%Z then a
       else (fst a, snd a || snd b).

Definition minUpper (a b : Bound) : Bound :=
  if (fst a <? fst b)%Z then a
  else if (fst b <? fst a)%Z then b
       else (fst a, snd a || snd b).

(** The interval of clock [i] under guard [g]; clocks start at [0 <= x]
    and have no upper bound ([None]). *)
Definition lowerOf (g : Guard) (i : ClockVariables) : Bound :=
  fold_left (fun b k =>
               if Nat.eqb (Constraint.x k) i then
                 match Constraint.odr k with
                 | Constraint.ge => maxLower b (Constraint.c k, false)
                 | Constraint.gt => maxLower b (Constraint.c k, true)
                 | _ => b
                 end
               else b) g (0%Z, false).

Definition upperOf (g : Guard) (i : ClockVariables) : option Bound :=
  fold_left (fun b k =>
               if Nat.eqb (Constraint.x k) i then
                 let tighten u := Some (from_option (minUpper u) u b) in
                 match Constraint.odr k with
                 | Constraint.le => tighten (Constraint.c k, false)
                 | Constraint.lt => tighten (Constraint.c k, true)
                 | _ => b
                 end
               else b) g None.

Definition nonEmpty (l : Bound) (u : option Bound) : bool :=
  match u with
  | None => true
  | Some u => (fst l <? fst u)%Z
              || ((fst l =? fst u)%Z && negb (snd l) && negb (snd u))
  end.

Definition clocks (g : Guard) : list ClockVariables := map Constraint.x g.

Definition satisfiable (g : Guard) : bool :=
  forallb (fun i => nonEmpty (lowerOf g i) (upperOf g i)) (clocks g).

Definition conjunction (g1 g2 : Guard) : Guard := g1 ++ g2.

(** [a] admits everything [b] admits. *)
Definition lowerWeaker (a b : Bound) : bool :=
  (fst a <? fst b)%Z || ((fst a =? fst b)%Z && implb (snd a) (snd b)).

Definition upperWeaker (a b : option Bound) : bool :=
  match a, b with
  | None, _ => true
  | Some _, None => false
  | Some a, Some b =>
      (fst b <? fst a)%Z || ((fst b =? fst a)%Z && implb (snd a) (snd b))
  end.

Definition isWeaker (gA gB : Guard) : bool :=
  negb (satisfiable gB)
  || forallb (fun i => lowerWeaker (lowerOf gA i) (lowerOf gB i)
                       && upperWeaker (upperOf gA i) (upperOf gB i))
             (clocks gA).

Definition lowerConstraint (i : ClockVariables) (l : Bound) : Guard :=
  if (fst l =? 0)%Z && negb (snd l) then []
  else [Constraint.mk i (if snd l then Constraint.gt else Constraint.ge) (fst l)].

Definition upperConstraint (i : ClockVariables) (u : option Bound) : Guard :=
  match u with
  | None => []
  | Some u => [Constraint.mk i (if snd u then Constraint.lt else Constraint.le) (fst u)]
  end.

(** The hull of no satisfiable guard is empty: an unsatisfiable guard. *)
Definition unionHull (guards : list Guard) : Guard :=
  match List.filter satisfiable guards with
  | [] => [Constraint.mk 0 Constraint.lt 0]
  | g :: gs =>
      let hullLower i :=
        fold_left (fun l g' => if lowerWeaker l (lowerOf g' i) then l else lowerOf g' i)
                  gs (lowerOf g i) in
      let hullUpper i :=
        fold_left (fun u g' => if upperWeaker u (upperOf g' i) then u else upperOf g' i)
                  gs (upperOf g i) in
      flat_map (fun i => lowerConstraint i (hullLower i) ++ upperConstraint i (hullUpper i))
               (remove_dups (flat_map clocks (g :: gs)))
  end.

#[export] Instance ops : GuardOps :=
  Build_GuardOps satisfiable conjunction isWeaker unionHull.
End IntervalGuards.

(** ** [NeighborConditions], as an interface *)

(** neighbor_conditions.hh is absent; the handler uses the class through
    these methods, [operator==] and the hash of a (state, neighbor) pair
    (both needed by the [unordered_set]). *)
Class NeighborOps (N : Type) := {
  match_ : N -> TATransition -> bool;
  toRelaxedGuard : N -> Guard;
  getClockSize : N -> nat;
  impreciseClocks : N -> list ClockVariables;
  successor : N -> Alphabet -> N;
  successorAssign : N -> N;
  makeAfterExternalTransition : N -> Resets -> nat -> N;
  neighbor_eqb : N -> N -> bool;
  hash_value : StatePtr * N -> nat
}.

(** ** [ImpreciseClockHandler] *)

Section Handler.
Context {G : GuardOps} {N : Type} {NO : NeighborOps N}.

(** What a call of [handleOne] leaves behind: the returned optional pair
    and the three reference parameters. *)
Record handled := mkHandled {
  result : option (StatePtr * N);
  out_newTransitions : list TATransition;
  out_matchBounded : bool;
  out_noMatch : bool
}.

Definition upperBounded (transition : TATransition) : bool :=
  existsb Constraint.isUpperBound (TATransition.guard transition).

(** The local [relaxedGuard] after the optional [erase]/[remove_if]. *)
Definition relaxedGuard (neighbor : N) (transition : TATransition) : Guard :=
  let relaxedGuard := toRelaxedGuard neighbor in
  if negb (upperBounded transition)
  then List.filter (fun constraint => negb (Constraint.isUpperBound constraint)) relaxedGuard
  else relaxedGuard.

(** The test guarding the emission of the relaxed transition. *)
Definition accepted (neighbor : N) (transition : TATransition) : bool :=
  isWeaker (relaxedGuard neighbor transition) (TATransition.guard transition)
  && negb (isWeaker (TATransition.guard transition) (relaxedGuard neighbor transition)).

Definition isZero (v : ResetValue) : bool :=
  match v with
  | RConst d => Qeq_bool d 0
  | RClock _ => false
  end.

(** [d == std::floor(d)] *)
Definition isIntegral (d : Q) : bool := Qeq_bool d (inject_Z (Qfloor d)).

(** "Follow the transition if it is internal" *)
Definition isInternal (neighbor : N) (transition : TATransition) : bool :=
  Nat.eqb (length (TATransition.resetVars transition)) 1
  && match head (TATransition.resetVars transition) with
     | Some front =>
         Nat.eqb (fst front) (getClockSize neighbor)
         && Nat.eqb (index (snd front)) 0
         && isZero (snd front)
     | None => false
     end.

(** The largest [constraint.x + 1] over the guards leaving the target. *)
Definition targetClockSize (h : heap) (target : StatePtr) : nat :=
  fold_left (fun size entry =>
               fold_left (fun size cTransition =>
                            fold_left (fun size constraint =>
                                         Nat.max size (Constraint.x constraint + 1))
                                      (TATransition.guard cTransition) size)
                         (snd entry) size)
            (TAState.next (deref h target)) 0.

(** "If constant values are assigned to all the clock variables" *)
Definition allConstant (h : heap) (transition : TATransition) : bool :=
  (targetClockSize h (TATransition.target transition)
     <=? length (TATransition.resetVars transition))
  && forallb (fun pair => Nat.eqb (index (snd pair)) 0)
             (TATransition.resetVars transition).

(** The lambda of the second [std::all_of]: [it] is found and [it2] is
    not. *)
Definition updatedToPrecise (resetVars : Resets) (clock : ClockVariables) : bool :=
  existsb (fun pair =>
             Nat.eqb (fst pair) clock
             && (Nat.eqb (index (snd pair)) 1
                 || match snd pair with
                    | RConst d => isIntegral d
                    | RClock _ => false
                    end)) resetVars
  && negb (existsb (fun pair =>
                      Nat.eqb (index (snd pair)) 1
                      && match snd pair with
                         | RClock y => Nat.eqb y clock
                         | RConst _ => false
                         end) resetVars).

Definition handleOne (h : heap) (neighbor : N) (transition : TATransition)
           (neighborSuccessor : N) (newTransitions : list TATransition)
           (matchBounded noMatch : bool) : handled :=
  if match_ neighbor transition then
    let noMatch := false in
    let matchBounded := matchBounded || upperBounded transition in
    let relaxedGuard := relaxedGuard neighbor transition in
    if accepted neighbor transition then
      let newTransitions :=
        newTransitions ++ [TATransition.mk (TATransition.target transition)
                                           (TATransition.resetVars transition)
                                           relaxedGuard] in
      if isInternal neighbor transition then
        mkHandled (Some (TATransition.target transition, neighborSuccessor))
                  newTransitions matchBounded noMatch
      else
        let targetClockSize := targetClockSize h (TATransition.target transition) in
        if allConstant h transition then
          mkHandled None newTransitions matchBounded noMatch
        else if forallb (updatedToPrecise (TATransition.resetVars transition))
                        (impreciseClocks neighbor) then
          mkHandled None newTransitions matchBounded noMatch
        else
          let newNeighbor :=
            makeAfterExternalTransition neighbor (TATransition.resetVars transition)
                                        targetClockSize in
          mkHandled (Some (TATransition.target transition, newNeighbor))
                    newTransitions matchBounded noMatch
    else mkHandled None newTransitions matchBounded noMatch
  else mkHandled None newTransitions matchBounded noMatch.

(** *** [run] *)

(** The work-set [impreciseNeighbors] is an [unordered_set]; it is kept
    as the list of its elements, [begin()] being the head.  Inserting an
    element that is already there changes nothing. *)
Definition WorkSet := list (StatePtr * N).

Definition insertNeighbor (pair : StatePtr * N) (ws : WorkSet) : WorkSet :=
  if existsb (fun q => Nat.eqb (fst q) (fst pair) && neighbor_eqb (snd q) (snd pair)) ws
  then ws
  else ws ++ [pair].

(** What the loops of [run] carry: the arena, the work-set and the two
    flags. *)
Record scan := mkScan {
  arena : heap;
  workSet : WorkSet;
  bounded : bool;
  unmatched : bool
}.

(** The loop over [transitions], the arena being the one the scan of
    this action started with. *)
Fixpoint scanTransitions (h : heap) (neighbor neighborSuccessor : N)
         (transitions : list TATransition) (staged : list TATransition)
         (ws : WorkSet) (matchBounded noMatch : bool)
  : list TATransition * WorkSet * bool * bool :=
  match transitions with
  | [] => (staged, ws, matchBounded, noMatch)
  | transition :: rest =>
      let r := handleOne h neighbor transition neighborSuccessor staged
                         matchBounded noMatch in
      let ws := match result r with
                | Some found => insertNeighbor found ws
                | None => ws
                end in
      scanTransitions h neighbor neighborSuccessor rest
                      (out_newTransitions r) ws (out_matchBounded r) (out_noMatch r)
  end.

(** Writing [transitions] back into entry [k] of [state->next]. *)
Definition setTransitions (h : heap) (state : StatePtr) (k : nat)
           (action : Alphabet) (transitions : list TATransition) : heap :=
  let s := deref h state in
  <[state := TAState.mk (TAState.isMatch s)
                        (<[k := (action, transitions)]> (TAState.next s))]> h.

(** The loop over [state->next]: [k] is the position of the iterator and
    [n] the number of entries still to visit. *)
Fixpoint scanActions (n k : nat) (state : StatePtr) (neighbor : N) (sc : scan) : scan :=
  match n with
  | 0 => sc
  | S n' =>
      match TAState.next (deref (arena sc) state) !! k with
      | None => sc
      | Some (action, transitions) =>
          let neighborSuccessor := successor neighbor action in
          let '(staged, ws, matchBounded, noMatch) :=
            scanTransitions (arena sc) neighbor neighborSuccessor transitions []
                            (workSet sc) (bounded sc) (unmatched sc) in
          scanActions n' (S k) state neighbor
                      (mkScan (setTransitions (arena sc) state k action
                                              (transitions ++ staged))
                              ws matchBounded noMatch)
      end
  end.

(** One round of the [do ... while] loop. *)
Definition round (state : StatePtr) (neighbor : N) (h : heap) (ws : WorkSet)
           (noMatch : bool) : scan :=
  scanActions (length (TAState.next (deref h state))) 0 state neighbor
              (mkScan h ws false noMatch).

(** The [do ... while (matchBounded || noMatch)] loop, for at most
    [fuel] rounds; the flag tells whether the loop was left. *)
Fixpoint relax (fuel : nat) (state : StatePtr) (neighbor : N) (h : heap)
         (ws : WorkSet) (noMatch : bool) : heap * WorkSet * bool :=
  match fuel with
  | 0 => (h, ws, false)
  | S fuel' =>
      let sc := round state neighbor h ws noMatch in
      let neighbor := successorAssign neighbor in
      if bounded sc || unmatched sc
      then relax fuel' state neighbor (arena sc) (workSet sc) (unmatched sc)
      else (arena sc, workSet sc, true)
  end.

(** The [while (!impreciseNeighbors.empty())] loop; [fuel] bounds the
    iterations of this loop and of each inner loop, and the flag tells
    whether [run] returned. *)
Fixpoint runLoop (fuel : nat) (h : heap) (ws : WorkSet) (visited : list nat)
  : heap * WorkSet * bool :=
  match fuel with
  | 0 => (h, ws, false)
  | S fuel' =>
      match ws with
      | [] => (h, ws, true)
      | (state, neighbor) :: ws' =>
          let hash := hash_value (state, neighbor) in
          if existsb (Nat.eqb hash) visited
          then runLoop fuel' h ws' visited
          else
            match relax fuel' state neighbor h ws' true with
            | (h', ws'', true) => runLoop fuel' h' ws'' (hash :: visited)
            | (h', ws'', false) => (h', ws'', false)
            end
      end
  end.

Definition run (fuel : nat) (h : heap) (impreciseNeighbors : WorkSet)
  : heap * WorkSet * bool :=
  runLoop fuel h impreciseNeighbors [].
End Handler.

(** ** Predicates used in the statements *)

(** [it2] has, among [others], a different transition to the same target
    whose guard is weaker than its own. *)
Definition dominated {G : GuardOps} (it2 : TATransition)
           (others : list TATransition) : Prop :=
  exists other,
    In other others /\ TATransition_eqb it2 other = false /\
    TATransition.target other = TATransition.target it2 /\
    isWeaker (TATransition.guard other) (TATransition.guard it2) = true.

(** The same with the two-sided (strict) test. *)
Definition strictlyDominated {G : GuardOps} (it2 : TATransition)
           (others : list TATransition) : Prop :=
  exists other,
    In other others /\
    TATransition.target other = TATransition.target it2 /\
    isWeaker (TATransition.guard other) (TATransition.guard it2) = true /\
    isWeaker (TATransition.guard it2) (TATransition.guard other) = false.

(** ** Concrete inputs *)

Module SpecModel.
(** Modelled from the spec: [TATransition::impreciseConstantAssignSize]
    (timed_automaton.hh is absent), the count of "imprecise constant
    assignments": the resets that assign a constant that is not an
    integer. *)
Definition impreciseConstantAssignSize (resets : Resets) : nat :=
  length (List.filter (fun reset => match snd reset with
                                    | RConst d => negb (isIntegral d)
                                    | RClock _ => false
                                    end) resets).
End SpecModel.

Definition clockLe (i : ClockVariables) (n : Z) := Constraint.mk i Constraint.le n.
Definition clockLt (i : ClockVariables) (n : Z) := Constraint.mk i Constraint.lt n.
Definition clockGe (i : ClockVariables) (n : Z) := Constraint.mk i Constraint.ge n.
Definition clockGt (i : ClockVariables) (n : Z) := Constraint.mk i Constraint.gt n.

Definition accepting : TAState := TAState.mk true [].
Definition rejecting : TAState := TAState.mk false [].

(** A state with the given transitions on the action [a], followed in the
    arena by accepting states 1, 2 and 3 and a non-accepting state 4. *)
Definition arenaWith (transitions : list TATransition) : heap :=
  [TAState.mk true [("a"%char, transitions)]; accepting; accepting; accepting; rejecting].

(** The transition [handleOne] emplaces for [transition], and the
    condition under which it does. *)
Definition relaxedTransition {N} {NO : NeighborOps N} (neighbor : N)
           (transition : TATransition) : TATransition :=
  TATransition.mk (TATransition.target transition)
                  (TATransition.resetVars transition)
                  (relaxedGuard neighbor transition).

Definition emits {G : GuardOps} {N} {NO : NeighborOps N} (neighbor : N)
           (transition : TATransition) : bool :=
  match_ neighbor transition && accepted neighbor transition.



(** A small implementation of [NeighborOps] for running the handler on
    concrete inputs: the neighbourhood is the box of clock values given by
    a guard; it matches a transition when the box and the guard overlap,
    its relaxed guard is the box itself, and time steps leave it as it
    is. *)
Module BoxNeighbor.
Record t := mk { box : Guard; clockSize : nat; imprecise : list ClockVariables }.

Definition eqb (a b : t) : bool :=
  list_eqb Constraint.eqb (box a) (box b)
  && Nat.eqb (clockSize a) (clockSize b)
  && list_eqb Nat.eqb (imprecise a) (imprecise b).

#[export] Instance ops : NeighborOps t :=
  {| match_ n transition :=
       IntervalGuards.satisfiable
         (IntervalGuards.conjunction (box n) (TATransition.guard transition));
     toRelaxedGuard := box;
     getClockSize := clockSize;
     impreciseClocks := imprecise;
     successor n _ := n;
     successorAssign n := n;
     makeAfterExternalTransition n _ size := mk (box n) size (imprecise n);
     neighbor_eqb := eqb;
     hash_value found := fst found + clockSize (snd found) |}.
End BoxNeighbor.

(** ** Further predicates and operations *)

(** The transition [m] jumps like [t]: same target, same reset map. *)
Definition sameJump (m t : TATransition) : Prop :=
  TATransition.target m = TATransition.target t /\
  TATransition.resetVars m = TATransition.resetVars t.

(** The clock counts [constraint.x + 1] of all constraints on the
    transitions leaving [target]. *)
Definition clocksRead (h : heap) (target : StatePtr) : list nat :=
  map (fun constraint => Constraint.x constraint + 1)
      (flat_map TATransition.guard (flat_map snd (TAState.next (deref h target)))).

(** An entry of a transition table after a round of the handler: the
    vector followed by the relaxed copies of its matched and accepted
    transitions. *)
Definition relaxEntry {G : GuardOps} {N} {NO : NeighborOps N} (neighbor : N)
           (entry : Alphabet * list TATransition) : Alphabet * list TATransition :=
  (fst entry,
   snd entry ++ map (relaxedTransition neighbor)
                    (List.filter (emits neighbor) (snd entry))).

(** [n] time steps of the neighbor. *)
Definition elapse {N} {NO : NeighborOps N} (n : nat) (neighbor : N) : N :=
  Nat.iter n successorAssign neighbor.

(** Every transition of [h'] jumps like a transition of [h] that stands in
    the same vector. *)
Definition jumpsFrom (h h' : heap) : Prop :=
  length h' = length h /\
  forall q s',
    h' !! q = Some s' ->
    exists s,
      h !! q = Some s /\
      Forall2 (fun e' e =>
                 fst e' = fst e /\
                 forall t', In t' (snd e') -> exists t, In t (snd e) /\ sameJump t' t)
              (TAState.next s') (TAState.next s).

(** ** [TimedAutomaton::simplifyWithZones] *)

Module TimedAutomaton.
(** The two members the operation rewrites: vectors of pointers to the
    states. *)
Record t := mk { states : list StatePtr; initialStates : list StatePtr }.

(** Modelled from the spec: [TimedAutomaton::stateSize] (timed_automaton.hh
    is absent), the number of states of the automaton. *)
Definition stateSize (ta : t) : nat := length (states ta).
End TimedAutomaton.

(** zone_automaton.hh and ta2za.hh are absent.  A state of the zone
    automaton is seen through the two members the operation reads:
    [taState] and, for every [action], the vector [next[action]] of
    (transition, target) pairs.  The states that [ta2za] and
    [removeDeadStates] leave in [zoneAutomaton.states] are a parameter of
    the operation. *)
Module ZAState.
Record t := mk { taState : StatePtr; next : nat -> list (TATransition * nat) }.
End ZAState.

(** [CHAR_MAX] of [<climits>], [char] being signed. *)
Definition CHAR_MAX : nat := 127.

Abbreviation LiveTransitions := (gmap StatePtr (list (Alphabet * TATransition))).

(** The loop over the actions and the edges of one zone state;
    [liveTransitions.at(p)] is there because the entry was made before. *)
Definition recordEdges (state : ZAState.t) (liveTransitions : LiveTransitions)
  : LiveTransitions :=
  fold_left
    (fun liveTransitions action =>
       fold_left
         (fun liveTransitions edge =>
            <[ZAState.taState state :=
                default [] (liveTransitions !! ZAState.taState state)
                ++ [(ascii_of_nat action, fst edge)]]> liveTransitions)
         (ZAState.next state action) liveTransitions)
    (seq 0 CHAR_MAX) liveTransitions.

(** "Make the live states of the TA" *)
Definition collectLive (zaStates : list ZAState.t)
  : gset StatePtr * LiveTransitions :=
  fold_left
    (fun live state =>
       let liveStates := {[ZAState.taState state]} ∪ fst live in
       let liveTransitions :=
         match snd live !! ZAState.taState state with
         | None => <[ZAState.taState state := []]> (snd live)
         | Some _ => snd live
         end in
       (liveStates, recordEdges state liveTransitions))
    zaStates (∅, ∅).

Definition isLive (liveStates : gset StatePtr) (p : StatePtr) : bool :=
  bool_decide (p ∈ liveStates).

(** Assigning the transition table of the state at [p]. *)
Definition setNext (h : heap) (p : StatePtr)
           (entries : list (Alphabet * list TATransition)) : heap :=
  <[p := TAState.mk (TAState.isMatch (deref h p)) entries]> h.

(** A loop over [state->next] that filters each vector with [keep] and
    erases the entry when nothing is left. *)
Definition eraseFrom (keep : Alphabet -> option (TATransition -> bool))
           (entries : list (Alphabet * list TATransition))
  : list (Alphabet * list TATransition) :=
  omap (fun entry =>
          match keep (fst entry) with
          | None => None
          | Some kept =>
              match List.filter kept (snd entry) with
              | [] => None
              | transitions => Some (fst entry, transitions)
              end
          end) entries.

(** The first clean-up: the transitions to states that are not live. *)
Definition eraseDeadTargets (liveStates : gset StatePtr) :=
  eraseFrom (fun _ => Some (fun transition =>
                              isLive liveStates (TATransition.target transition))).

Definition removeDeadStates (liveStates : gset StatePtr) (h : heap)
           (ta : TimedAutomaton.t) : heap * TimedAutomaton.t :=
  if Nat.eqb (size liveStates) (TimedAutomaton.stateSize ta) then (h, ta)
  else
    let states := List.filter (isLive liveStates) (TimedAutomaton.states ta) in
    let initialStates :=
      List.filter (isLive liveStates) (TimedAutomaton.initialStates ta) in
    (fold_left (fun h state =>
                  setNext h state
                          (eraseDeadTargets liveStates (TAState.next (deref h state))))
               states h,
     TimedAutomaton.mk states initialStates).

(** A [boost::unordered_set<TATransition>], kept as the list of its
    elements: inserting an element equal to one that is there changes
    nothing, and [find] succeeds when an equal element is there. *)
Definition insertTransition (transition : TATransition)
           (set : list TATransition) : list TATransition :=
  if existsb (TATransition_eqb transition) set then set else set ++ [transition].

Definition findTransition (transition : TATransition)
           (set : list TATransition) : bool :=
  existsb (TATransition_eqb transition) set.

Definition liveNext (live : list (Alphabet * TATransition))
  : gmap Alphabet (list TATransition) :=
  fold_left
    (fun liveNextTransitions edge =>
       match liveNextTransitions !! fst edge with
       | None => <[fst edge := [snd edge]]> liveNextTransitions
       | Some set =>
           <[fst edge := insertTransition (snd edge) set]> liveNextTransitions
       end)
    live ∅.

(** The second clean-up of one state. *)
Definition restrictState (liveTransitions : LiveTransitions) (h : heap)
           (state : StatePtr) : heap :=
  match liveTransitions !! state with
  | None => setNext h state []
  | Some live =>
      let liveNextTransitions := liveNext live in
      setNext h state
              (eraseFrom (fun action =>
                            match liveNextTransitions !! action with
                            | None => None
                            | Some set => Some (fun transition =>
                                                  findTransition transition set)
                            end)
                         (TAState.next (deref h state)))
  end.

Definition simplifyWithZones (zaStates : list ZAState.t) (h : heap)
           (ta : TimedAutomaton.t) : heap * TimedAutomaton.t :=
  let live := collectLive zaStates in
  let pruned := removeDeadStates (fst live) h ta in
  (fold_left (restrictState (snd live)) (TimedAutomaton.states (snd pruned))
             (fst pruned),
   snd pruned).

(** The edges of the zone states that stand for the state at [p]. *)
Definition exercised (zaStates : list ZAState.t) (p : StatePtr)
           (action : Alphabet) (transition : TATransition) : Prop :=
  exists state n edge,
    In state zaStates /\ ZAState.taState state = p /\
    n < CHAR_MAX /\ action = ascii_of_nat n /\
    In edge (ZAState.next state n) /\
    TATransition_eqb transition (fst edge) = true.

(** [es'] is what is left of [es] after erasing entries and transitions. *)
Definition prunedFrom (es' es : list (Alphabet * list TATransition)) : Prop :=
  sublist (map fst es') (map fst es) /\
  forall action ts',
    In (action, ts') es' ->
    exists ts, In (action, ts) es /\ sublist ts' ts.

(** Rewriting the tables of the states in [sts], one after the other, the
    new table of [p] being [F p] of its table. *)
Definition sweep (F : StatePtr -> list (Alphabet * list TATransition)
                      -> list (Alphabet * list TATransition))
           (h : heap) (sts : list StatePtr) : heap :=
  fold_left (fun h p => setNext h p (F p (TAState.next (deref h p)))) sts h.

(** What [restrictState] makes of the table of the state at [p]. *)
Definition restrictEntries (liveTransitions : LiveTransitions) (p : StatePtr)
           (entries : list (Alphabet * list TATransition))
  : list (Alphabet * list TATransition) :=
  match liveTransitions !! p with
  | None => []
  | Some live =>
      eraseFrom (fun action =>
                   match liveNext live !! action with
                   | None => None
                   | Some set => Some (fun transition => findTransition transition set)
                   end) entries
  end.

(** [transition] labels, under [action], an edge of a zone state that
    stands for the state at [p]. *)
Definition edgeOf (zaStates : list ZAState.t) (p : StatePtr)
           (action : Alphabet) (transition : TATransition) : Prop :=
  exists state n edge,
    In state zaStates /\ ZAState.taState state = p /\
    n < CHAR_MAX /\ action = ascii_of_nat n /\
    In edge (ZAState.next state n) /\ transition = fst edge.

(** Every transition of the table leads to a live state; no vector of
    the table is empty. *)
Definition targetsLive (liveStates : gset StatePtr)
           (es : list (Alphabet * list TATransition)) : Prop :=
  forall action ts t,
    In (action, ts) es -> In t ts -> isLive liveStates (TATransition.target t) = true.

Definition noEmptyVector (es : list (Alphabet * list TATransition)) : Prop :=
  forall action ts, In (action, ts) es -> ts <> [].

(** ** [TAState::addUpperBoundForUnobservableTransitions] *)

Section Unobservable.
(** The constant [UNOBSERVABLE] (common_types.hh) and the function
    [addUpperBound] on guards (constraint.hh) are absent: parameters. *)
Variable UNOBSERVABLE : Alphabet.
Variable addUpperBound : Guard -> Guard.

(** The loop over [it->second]. *)
Definition boundGuards (transitions : list TATransition) : list TATransition :=
  map (fun transition =>
         TATransition.mk (TATransition.target transition)
                         (TATransition.resetVars transition)
                         (addUpperBound (TATransition.guard transition)))
      transitions.

(** [this->next.find(UNOBSERVABLE)] and the update of the entry found. *)
Fixpoint boundFound (entries : list (Alphabet * list TATransition))
  : list (Alphabet * list TATransition) :=
  match entries with
  | [] => []
  | entry :: entries' =>
      if Ascii.eqb (fst entry) UNOBSERVABLE
      then (fst entry, boundGuards (snd entry)) :: entries'
      else entry :: boundFound entries'
  end.

Definition addUpperBoundForUnobservableTransitions (h : heap) (p : StatePtr) : heap :=
  setNext h p (boundFound (TAState.next (deref h p))).
End Unobservable.

(** ** A zone automaton for the concrete runs *)

(** Two live zone states: one for state 0, with an edge under ['a']
    labelled by [transition], and one for state 1, without edges. *)
Definition zoneStatesWith (transition : TATransition) : list ZAState.t :=
  [ZAState.mk 0 (fun action => if Nat.eqb action 97 then [(transition, 1)] else []);
   ZAState.mk 1 (fun _ => [])].

(** * Properties *)

(** ** Value equality *)

Lemma list_eqb_refl {A} (eqb : A -> A -> bool) (l : list A) :
  (forall a, eqb a a = true) -> list_eqb eqb l l = true.
Proof.
  intros Hrefl. induction l as [|a l IH]; simpl; [reflexivity|].
  now rewrite Hrefl, IH.
Qed.

Lemma ResetValue_eqb_refl v : ResetValue_eqb v v = true.
Proof.
  destruct v as [d|y]; simpl.
  - apply Qeq_bool_iff. reflexivity.
  - apply Nat.eqb_refl.
Qed.

Lemma Constraint_eqb_refl k : Constraint.eqb k k = true.
Proof.
  unfold Constraint.eqb. rewrite Nat.eqb_refl, Z.eqb_refl.
  now destruct (Constraint.odr k).
Qed.

Lemma TATransition_eqb_refl t : TATransition_eqb t t = true.
Proof.
  unfold TATransition_eqb. rewrite Nat.eqb_refl. simpl.
  rewrite !list_eqb_refl; auto using Constraint_eqb_refl.
  intros a. now rewrite Nat.eqb_refl, ResetValue_eqb_refl.
Qed.

(** ** The interval guard algebra *)

(** Every guard is weaker than itself. *)
Lemma IntervalGuards_isWeaker_refl (g : Guard) : IntervalGuards.isWeaker g g = true.
Proof.
  unfold IntervalGuards.isWeaker. apply orb_true_iff. right.
  apply forallb_forall. intros i _. apply andb_true_intro. split.
  - unfold IntervalGuards.lowerWeaker.
    rewrite Z.eqb_refl, implb_same. apply orb_true_r.
  - unfold IntervalGuards.upperWeaker.
    destruct (IntervalGuards.upperOf g i) as [u|]; [|reflexivity].
    rewrite Z.eqb_refl, implb_same. apply orb_true_r.
Qed.

(** ** [deterministic] *)

Section DeterministicFacts.
Context {G : GuardOps}.

Lemma deterministicFrom_false (seen ts : list TATransition) :
  deterministicFrom seen ts = false <->
  exists i j ti tj,
    i < j /\ length seen <= j /\
    (seen ++ ts) !! i = Some ti /\ (seen ++ ts) !! j = Some tj /\
    overlap ti tj = true.
Proof.
  revert seen. induction ts as [|it rest IH]; intros seen; simpl.
  - split; [discriminate|].
    intros (i & j & ti & tj & Hij & Hlen & _ & Hj & _).
    rewrite app_nil_r in Hj. apply lookup_lt_Some in Hj. lia.
  - match goal with
    | |- context [existsb ?f seen] => destruct (existsb f seen) eqn:Hex
    end.
    + split; [intros _|reflexivity].
      apply existsb_exists in Hex as (ti & Hin & Hsat).
      apply list_elem_of_In, list_elem_of_lookup in Hin as (i & Hi).
      exists i, (length seen), ti, it.
      pose proof (lookup_lt_Some _ _ _ Hi).
      repeat split; try lia; try assumption.
      * now rewrite lookup_app_l.
      * now rewrite list_lookup_middle.
    + rewrite IH, length_app. simpl.
      rewrite <- (app_assoc seen [it] rest). simpl.
      split; intros (i & j & ti & tj & Hij & Hlen & Hi & Hj & Hsat).
      * exists i, j, ti, tj. repeat split; try assumption; lia.
      * exists i, j, ti, tj. repeat split; try assumption.
        destruct (decide (j = length seen)) as [->|]; [|lia].
        exfalso. rewrite list_lookup_middle in Hj by reflexivity.
        injection Hj as <-. rewrite lookup_app_l in Hi by lia.
        apply not_true_iff_false in Hex. apply Hex.
        apply existsb_exists. exists ti. split; [|assumption].
        apply list_elem_of_In, list_elem_of_lookup. eauto.
Qed.

Lemma deterministic_false (s : TAState) :
  deterministic s = false <->
  exists action transitions i j ti tj,
    In (action, transitions) (TAState.next s) /\ i < j /\
    transitions !! i = Some ti /\ transitions !! j = Some tj /\
    overlap ti tj = true.
Proof.
  unfold deterministic. split.
  - intros Hf.
    assert (exists pair, In pair (TAState.next s)
                         /\ deterministicFrom [] (snd pair) = false)
      as ([action transitions] & Hin & Hd).
    { induction (TAState.next s) as [|e es IH]; simpl in *; [discriminate|].
      destruct (deterministicFrom [] (snd e)) eqn:He.
      - destruct (IH Hf) as (q & ? & ?). eauto.
      - eauto. }
    apply deterministicFrom_false in Hd
      as (i & j & ti & tj & Hij & _ & Hi & Hj & Hsat).
    exists action, transitions, i, j, ti, tj. auto.
  - intros (action & transitions & i & j & ti & tj & Hin & Hij & Hi & Hj & Hsat).
    apply not_true_is_false. intros Hall.
    rewrite forallb_forall in Hall. specialize (Hall _ Hin). simpl in Hall.
    assert (deterministicFrom [] transitions = false) as Hd; [|congruence].
    apply deterministicFrom_false.
    exists i, j, ti, tj. simpl. repeat split; auto; lia.
Qed.
End DeterministicFacts.

(** ** [mergeNondeterministicBranching] *)

Section MergeFacts.
Context {G : GuardOps}.
Variable impreciseConstantAssignSize : Resets -> nat.
Variable h : heap.
Variable NDEBUG : bool.

Abbreviation merged := (mergeInto impreciseConstantAssignSize).
Abbreviation absorb := (absorb impreciseConstantAssignSize h NDEBUG).
Abbreviation mergeLoop := (mergeLoop impreciseConstantAssignSize h NDEBUG).
Abbreviation mergeEntries := (mergeEntries impreciseConstantAssignSize h NDEBUG).

(** *** The first loop *)

Lemma removable_iff it2 others :
  removable it2 others = true <-> dominated it2 others.
Proof.
  unfold removable, dominated. rewrite existsb_exists.
  split; intros (other & Hin & Hp); exists other.
  - apply andb_prop in Hp as [Hp Htarget]. apply andb_prop in Hp as [Hne Hw].
    apply Nat.eqb_eq in Htarget. apply negb_true_iff in Hne. auto.
  - destruct Hp as (Hne & Htarget & Hw).
    rewrite Hne, Hw, Htarget, Nat.eqb_refl. auto.
Qed.

(** [*it2] never removes itself. *)
Lemma removable_self kept it2 rest :
  removable it2 (kept ++ it2 :: rest) = removable it2 (kept ++ rest).
Proof.
  unfold removable. rewrite !existsb_app. simpl.
  now rewrite TATransition_eqb_refl.
Qed.

Lemma removeWeaker_shape kept rest :
  exists l, removeWeaker kept rest = kept ++ l /\ sublist l rest.
Proof.
  revert kept. induction rest as [|it2 rest IH]; intros kept; simpl.
  - exists []. now rewrite app_nil_r.
  - destruct (removable it2 (kept ++ it2 :: rest)).
    + destruct (IH kept) as (l & -> & Hsub). exists l.
      split; [reflexivity|]. now apply sublist_cons.
    + destruct (IH (kept ++ [it2])) as (l & -> & Hsub). exists (it2 :: l).
      rewrite <- app_assoc. split; [reflexivity|]. now apply sublist_skip.
Qed.

Lemma removeWeaker_step kept it2 rest :
  (dominated it2 (kept ++ rest) ->
   removeWeaker kept (it2 :: rest) = removeWeaker kept rest) /\
  (~ dominated it2 (kept ++ rest) ->
   removeWeaker kept (it2 :: rest) = removeWeaker (kept ++ [it2]) rest).
Proof.
  simpl. rewrite removable_self.
  destruct (removable it2 (kept ++ rest)) eqn:Hr.
  - split; [reflexivity|]. intros Hn. apply removable_iff in Hr. tauto.
  - split; [|reflexivity]. intros Hd. apply removable_iff in Hd. congruence.
Qed.

(** *** The second loop *)

Lemma mergeLoop_cons it2 rest :
  mergeLoop (it2 :: rest) =
  r ← absorb it2 rest; out ← mergeLoop (snd r); Done (fst r :: out).
Proof.
  simp mergeLoop.
  match goal with |- _ = ?rhs => remember rhs as after eqn:Hafter end.
  destruct (inspect (absorb it2 rest)) as [[r|] Ho];
    rewrite Ho in Hafter; subst after; reflexivity.
Qed.


Lemma absorb_skip it2 it3 rest :
  overlap it2 it3 = false ->
  absorb it2 (it3 :: rest) = r ← absorb it2 rest; Done (fst r, it3 :: snd r).
Proof. unfold overlap. simpl. now intros ->. Qed.






(** With [NDEBUG] the operation always returns. *)
Lemma absorb_unchecked it2 rest :
  NDEBUG = true -> exists r, absorb it2 rest = Done r.
Proof.
  intros HN. revert it2. induction rest as [|it3 rest IH]; intros it2; simpl.
  - eauto.
  - replace (NDEBUG || sameAcceptance h it2 it3) with true
      by (rewrite HN; reflexivity).
    destruct (satisfiable _); [apply IH|].
    destruct (IH it2) as [r ->]. simpl. eauto.
Qed.

Lemma mergeLoop_unchecked n :
  NDEBUG = true ->
  forall ts, length ts <= n -> exists out, mergeLoop ts = Done out.
Proof.
  intros HN. induction n as [|n IH]; intros ts Hn.
  - destruct ts; [|simpl in Hn; lia]. simp mergeLoop. eauto.
  - destruct ts as [|it2 rest]; [simp mergeLoop; eauto|].
    rewrite mergeLoop_cons.
    destruct (absorb_unchecked it2 rest HN) as [r Hr]. rewrite Hr. simpl.
    destruct (IH (snd r)) as [out ->]; [|simpl; eauto].
    enough (length (snd r) <= length rest) by (simpl in Hn; lia).
    clear -Hr. revert it2 r Hr.
    induction rest as [|it3 rest IHr]; intros it2 r; simpl.
    + intros [= <-]. simpl. lia.
    + destruct (satisfiable _).
      * destruct (NDEBUG || sameAcceptance h it2 it3); [|discriminate].
        intros Hr. specialize (IHr _ _ Hr). lia.
      * destruct (absorb it2 rest) as [q|] eqn:E; simpl; [|discriminate].
        intros [= <-]. simpl. specialize (IHr _ _ E). lia.
Qed.

Lemma mergeEntries_unchecked entries :
  NDEBUG = true -> exists merged, mergeEntries entries = Done merged.
Proof.
  intros HN. induction entries as [|e entries IH]; simpl; [eauto|].
  destruct (mergeLoop_unchecked _ HN (removeWeaker [] (snd e)) (Nat.le_refl _))
    as [ts ->].
  destruct IH as [rest ->]. simpl. eauto.
Qed.
End MergeFacts.

(** *** The assertion, in a build without [NDEBUG] *)

Section AssertFacts.
Context {G : GuardOps}.
Variable impreciseConstantAssignSize : Resets -> nat.
Variable h : heap.

Abbreviation absorb := (absorb impreciseConstantAssignSize h false).
Abbreviation mergeLoop := (mergeLoop impreciseConstantAssignSize h false).
Abbreviation mergeEntries := (mergeEntries impreciseConstantAssignSize h false).

Lemma comparesInner_abort it2 rest a b :
  comparesInner impreciseConstantAssignSize h false it2 rest a b ->
  overlap a b = true -> sameAcceptance h a b = false ->
  absorb it2 rest = AssertionFailure.
Proof.
  unfold overlap.
  induction 1 as [it2 it3 rest|it2 it3 rest a b Hskip _ IH
                  |it2 it3 rest a b Hsat Hacc _ IH]; intros Hov Hmis; simpl.
  - now rewrite Hov, Hmis.
  - now rewrite Hskip, IH.
  - simpl in Hacc. now rewrite Hsat, Hacc, IH.
Qed.

Lemma compares_abort ts a b :
  compares impreciseConstantAssignSize h false ts a b ->
  overlap a b = true -> sameAcceptance h a b = false ->
  mergeLoop ts = AssertionFailure.
Proof.
  induction 1 as [it2 rest a b Hin|it2 rest r a b Habs _ IH];
    intros Hov Hmis; rewrite mergeLoop_cons.
  - now rewrite (comparesInner_abort _ _ _ _ Hin Hov Hmis).
  - rewrite Habs. simpl. now rewrite IH.
Qed.

Lemma mergeEntries_abort entries action transitions :
  In (action, transitions) entries ->
  mergeLoop (removeWeaker [] transitions) = AssertionFailure ->
  mergeEntries entries = AssertionFailure.
Proof.
  induction entries as [|e entries IH]; simpl; [tauto|].
  intros [->|Hin] Hfail; simpl.
  - now rewrite Hfail.
  - destruct (mergeLoop (removeWeaker [] (snd e))); simpl; [|reflexivity].
    now rewrite IH.
Qed.

Lemma mergeNondeterministicBranching_abort p action transitions a b :
  In (action, transitions) (TAState.next (deref h p)) ->
  compares impreciseConstantAssignSize h false (removeWeaker [] transitions) a b ->
  overlap a b = true -> sameAcceptance h a b = false ->
  mergeNondeterministicBranching impreciseConstantAssignSize h false p
  = AssertionFailure.
Proof.
  intros Hin Hcmp Hov Hmis. unfold mergeNondeterministicBranching.
  rewrite (mergeEntries_abort _ _ _ Hin); [reflexivity|].
  eapply compares_abort; eassumption.
Qed.
End AssertFacts.

(** ** The claims about [deterministic] and [mergeNondeterministicBranching] *)

(** C4.  [deterministic] answers false exactly when, under some action,
    two transitions at different positions have jointly satisfiable
    guards; the call leaves the arena as it was.  With the guards
    [x <= 1] and [x >= 1] on one action the answer is false, with
    [x < 1] and [x >= 1] it is true. *)
Theorem deterministic_iff_no_overlap :
  (forall (G : GuardOps) (s : TAState),
      deterministic s = false <->
      exists action transitions i j ti tj,
        In (action, transitions) (TAState.next s) /\ i < j /\
        transitions !! i = Some ti /\ transitions !! j = Some tj /\
        overlap ti tj = true) /\
  (forall (G : GuardOps) (p : StatePtr) (h : heap),
      call_deterministic p h = (deterministic (deref h p), h)) /\
  @deterministic IntervalGuards.ops
    (TAState.mk true [("a"%char, [TATransition.mk 1 [] [clockLe 0 1];
                                  TATransition.mk 1 [] [clockGe 0 1]])]) = false /\
  @deterministic IntervalGuards.ops
    (TAState.mk true [("a"%char, [TATransition.mk 1 [] [clockLt 0 1];
                                  TATransition.mk 1 [] [clockGe 0 1]])]) = true.
Proof.
  split; [|split; [|split]].
  - intros G s. apply deterministic_false.
  - reflexivity.
  - vm_compute. reflexivity.
  - vm_compute. reflexivity.
Qed.

(** C3, as the code has it.  In the first loop the transition under
    examination is dropped exactly when the vector, at that moment, holds a
    transition that differs from it as a value, points to the same target
    and has a guard [isWeaker] than its own; the reverse [isWeaker] test is
    not made.  So of two different transitions to one target whose guards
    are weaker than each other the first is dropped and the second stays,
    and two equal transitions both stay. *)
Theorem removeWeaker_drops_iff_dominated :
  forall (G : GuardOps),
    (forall kept it2 rest,
        (dominated it2 (kept ++ rest) ->
         removeWeaker kept (it2 :: rest) = removeWeaker kept rest /\
         exists l, removeWeaker kept (it2 :: rest) = kept ++ l /\ sublist l rest) /\
        (~ dominated it2 (kept ++ rest) ->
         removeWeaker kept (it2 :: rest) = removeWeaker (kept ++ [it2]) rest /\
         exists l, removeWeaker kept (it2 :: rest) = kept ++ it2 :: l /\ sublist l rest)) /\
    (forall a b,
        TATransition_eqb a b = false ->
        TATransition.target b = TATransition.target a ->
        isWeaker (TATransition.guard b) (TATransition.guard a) = true ->
        removeWeaker [] [a; b] = [b]) /\
    (forall a, removeWeaker [] [a; a] = [a; a]).
Proof.
  intros G. split; [|split].
  - intros kept it2 rest.
    destruct (removeWeaker_step kept it2 rest) as [Hdrop Hkeep].
    split; intros Hd.
    + split; [auto|]. rewrite (Hdrop Hd). apply removeWeaker_shape.
    + split; [auto|]. rewrite (Hkeep Hd).
      destruct (removeWeaker_shape (kept ++ [it2]) rest) as (l & -> & Hsub).
      exists l. now rewrite <- app_assoc.
  - intros a b Hne Htarget Hw.
    destruct (removeWeaker_step [] a [b]) as [Hdrop _].
    rewrite Hdrop.
    + destruct (removeWeaker_step [] b []) as [_ Hkeep].
      rewrite Hkeep; [reflexivity|]. intros (o & [] & _).
    + exists b. simpl. auto.
  - intros a. simpl. unfold removable. simpl.
    now rewrite !TATransition_eqb_refl.
Qed.

(** C3, as stated, fails: a transition with the guard [x <= 1, x <= 2] is
    dropped because of another one to the same target with the guard
    [x <= 1], although each guard is weaker than the other, so that no
    transition is strictly weaker. *)
Lemma removeWeaker_drops_equivalent_guard :
  let this := TATransition.mk 1 [] [clockLe 0 1; clockLe 0 2] in
  let other := TATransition.mk 1 [] [clockLe 0 1] in
  @removeWeaker IntervalGuards.ops [] [this; other] = [other] /\
  @isWeaker IntervalGuards.ops (TATransition.guard other) (TATransition.guard this) = true /\
  @isWeaker IntervalGuards.ops (TATransition.guard this) (TATransition.guard other) = true /\
  ~ @strictlyDominated IntervalGuards.ops this [other].
Proof.
  repeat split; try (vm_compute; reflexivity).
  intros (o & [<-|[]] & _ & _ & Hstrict). vm_compute in Hstrict. discriminate.
Qed.

(** C5, as the code has it.  The check is an [assert].  In a build without
    [NDEBUG], when the second loop compares two transitions with jointly
    satisfiable guards whose targets differ in [isMatch], the operation
    aborts on the assertion instead of merging them; hence, when the
    operation returns in such a build, every pair with jointly satisfiable
    guards that it compared, and so every pair it merged, agreed on
    [isMatch].  In a build with [NDEBUG] the assertion is compiled out and
    the operation always returns. *)
Theorem merge_aborts_on_acceptance_mismatch :
  (forall (G : GuardOps) (cnt : Resets -> nat) (h : heap) (p : StatePtr)
          action transitions a b,
      In (action, transitions) (TAState.next (deref h p)) ->
      compares cnt h false (removeWeaker [] transitions) a b ->
      overlap a b = true ->
      (TAState.isMatch (deref h (TATransition.target a))
       <> TAState.isMatch (deref h (TATransition.target b)) ->
       mergeNondeterministicBranching cnt h false p = AssertionFailure) /\
      (forall h', mergeNondeterministicBranching cnt h false p = Done h' ->
                  TAState.isMatch (deref h (TATransition.target a))
                  = TAState.isMatch (deref h (TATransition.target b)))) /\
  (forall (G : GuardOps) (cnt : Resets -> nat) (h : heap) (p : StatePtr),
      exists h', mergeNondeterministicBranching cnt h true p = Done h').
Proof.
  split.
  - intros G cnt h p action transitions a b Hin Hcmp Hov.
    assert (TAState.isMatch (deref h (TATransition.target a))
            <> TAState.isMatch (deref h (TATransition.target b)) ->
            mergeNondeterministicBranching cnt h false p = AssertionFailure)
      as Habort.
    { intros Hmis. eapply mergeNondeterministicBranching_abort; try eassumption.
      unfold sameAcceptance. now apply eqb_false_iff. }
    split; [exact Habort|].
    intros h' Hdone.
    destruct (bool_decide (TAState.isMatch (deref h (TATransition.target a))
                           = TAState.isMatch (deref h (TATransition.target b))))
      eqn:Hd.
    + now apply bool_decide_eq_true in Hd.
    + apply bool_decide_eq_false in Hd. rewrite (Habort Hd) in Hdone.
      discriminate.
  - intros G cnt h p. unfold mergeNondeterministicBranching.
    destruct (mergeEntries_unchecked cnt h true (TAState.next (deref h p)) eq_refl)
      as [merged ->].
    simpl. eauto.
Qed.

Lemma merge_aborts_on_acceptance_mismatch_witness :
  let a := TATransition.mk 1 [] [clockLe 0 2] in
  let b := TATransition.mk 4 [] [clockGe 0 1; clockLe 0 3] in
  @overlap IntervalGuards.ops a b = true /\
  TAState.isMatch (deref (arenaWith [a; b]) 1)
  <> TAState.isMatch (deref (arenaWith [a; b]) 4) /\
  @mergeNondeterministicBranching IntervalGuards.ops
    SpecModel.impreciseConstantAssignSize (arenaWith [a; b]) false 0
  = AssertionFailure.
Proof.
  intros a b. split; [reflexivity|]. split; [discriminate|].
  apply (proj1 merge_aborts_on_acceptance_mismatch IntervalGuards.ops
           SpecModel.impreciseConstantAssignSize (arenaWith [a; b]) 0
           "a"%char [a; b] a b).
  - left. reflexivity.
  - apply cmp_first, cmp_here.
  - reflexivity.
  - discriminate.
Defined.

(** C5, as stated, fails in a build with [NDEBUG].  The guards [x <= 2]
    and [1 <= x <= 3] lead to the accepting state 1 and to the
    non-accepting state 4; the second loop compares the two transitions,
    their guards are jointly satisfiable and the targets differ in
    [isMatch], yet the operation does not abort: it merges them and
    returns, the merged transition leading to the accepting state. *)
Lemma merge_unchecked_merges_mismatch :
  let a := TATransition.mk 1 [] [clockLe 0 2] in
  let b := TATransition.mk 4 [] [clockGe 0 1; clockLe 0 3] in
  @compares IntervalGuards.ops SpecModel.impreciseConstantAssignSize
            (arenaWith [a; b]) true
            (@removeWeaker IntervalGuards.ops [] [a; b]) a b /\
  @overlap IntervalGuards.ops a b = true /\
  TAState.isMatch (deref (arenaWith [a; b]) (TATransition.target a))
  <> TAState.isMatch (deref (arenaWith [a; b]) (TATransition.target b)) /\
  @mergeNondeterministicBranching IntervalGuards.ops
    SpecModel.impreciseConstantAssignSize (arenaWith [a; b]) true 0
  = Done (arenaWith [TATransition.mk 1 [] [clockLe 0 3]]).
Proof.
  intros a b. split; [apply cmp_first, cmp_here|].
  split; [reflexivity|]. split; [discriminate|].
  vm_compute. reflexivity.
Qed.






(** ** [handleOne] *)

Section HandlerFacts.
Context {G : GuardOps} {N : Type} {NO : NeighborOps N}.

Lemma handleOne_newTransitions h neighbor transition neighborSuccessor
      staged matchBounded noMatch :
  out_newTransitions (handleOne h neighbor transition neighborSuccessor
                                staged matchBounded noMatch)
  = if emits neighbor transition
    then staged ++ [relaxedTransition neighbor transition]
    else staged.
Proof.
  unfold handleOne, emits.
  destruct (match_ neighbor transition); simpl; [|reflexivity].
  destruct (accepted neighbor transition); simpl; [|reflexivity].
  destruct (isInternal neighbor transition); [reflexivity|].
  destruct (allConstant h transition); [reflexivity|].
  now destruct (forallb _ (impreciseClocks neighbor)).
Qed.

Lemma app_singleton_inv {A} (l : list A) (a b : A) :
  l ++ [a] = l ++ [b] -> a = b.
Proof. intros Heq. apply app_inv_head in Heq. congruence. Qed.

Lemma handleOne_emitted h neighbor transition neighborSuccessor
      staged matchBounded noMatch emitted :
  out_newTransitions (handleOne h neighbor transition neighborSuccessor
                                staged matchBounded noMatch)
  = staged ++ [emitted] ->
  emits neighbor transition = true /\
  emitted = relaxedTransition neighbor transition.
Proof.
  rewrite handleOne_newTransitions.
  destruct (emits neighbor transition).
  - intros Heq. apply app_singleton_inv in Heq. auto.
  - intros Heq. rewrite <- (app_nil_r staged) in Heq at 1.
    apply app_inv_head in Heq. discriminate.
Qed.

Lemma relaxedGuard_unbounded neighbor transition :
  upperBounded transition = false ->
  relaxedGuard neighbor transition
  = List.filter (fun constraint => negb (Constraint.isUpperBound constraint))
                (toRelaxedGuard neighbor).
Proof. unfold relaxedGuard. now intros ->. Qed.

Lemma updatedToPrecise_intro resetVars clock d :
  In (clock, RConst d) resetVars ->
  (d == inject_Z (Qfloor d))%Q ->
  (forall reset, In reset resetVars -> snd reset <> RClock clock) ->
  updatedToPrecise resetVars clock = true.
Proof.
  intros Hin Hint Hunused. unfold updatedToPrecise.
  apply andb_true_intro. split.
  - apply existsb_exists. exists (clock, RConst d). split; [assumption|].
    simpl. rewrite Nat.eqb_refl. simpl. now apply Qeq_bool_iff.
  - apply negb_true_iff, not_true_iff_false. intros Hex.
    apply existsb_exists in Hex as ([c v] & Hin' & Hp). simpl in Hp.
    destruct v as [e|y]; simpl in Hp; [discriminate|].
    apply Nat.eqb_eq in Hp. subst y. now apply (Hunused _ Hin').
Qed.
End HandlerFacts.

(** C1.  A call of [handleOne] emplaces at most one transition; when it
    does, the neighbor matched, the guard of the new transition is the
    relaxed guard, [isWeaker (relaxedGuard, t.guard)] holds and
    [isWeaker (t.guard, relaxedGuard)] does not.  So the new guard is never
    equivalent to the guard of [t] under the two-sided test. *)
Theorem handleOne_emits_only_strictly_weaker :
  forall (G : GuardOps) (N : Type) (NO : NeighborOps N)
         h (neighbor : N) t neighborSuccessor staged matchBounded noMatch,
    let out := out_newTransitions (handleOne h neighbor t neighborSuccessor
                                             staged matchBounded noMatch) in
    (out = staged \/ out = staged ++ [relaxedTransition neighbor t]) /\
    forall emitted,
      out = staged ++ [emitted] ->
      match_ neighbor t = true /\
      TATransition.guard emitted = relaxedGuard neighbor t /\
      isWeaker (TATransition.guard emitted) (TATransition.guard t) = true /\
      isWeaker (TATransition.guard t) (TATransition.guard emitted) = false /\
      ~ (isWeaker (TATransition.guard emitted) (TATransition.guard t) = true /\
         isWeaker (TATransition.guard t) (TATransition.guard emitted) = true).
Proof.
  intros G N NO h neighbor t neighborSuccessor staged matchBounded noMatch out.
  split.
  - subst out. rewrite handleOne_newTransitions.
    destruct (emits neighbor t); auto.
  - intros emitted Hout. apply handleOne_emitted in Hout as [Hemits ->].
    unfold emits, accepted in Hemits.
    apply andb_prop in Hemits as [Hmatch Hacc].
    apply andb_prop in Hacc as [Hw Hnw]. apply negb_true_iff in Hnw.
    simpl. repeat split; try assumption.
    intros [_ Hback]. congruence.
Qed.

(** C6.  When the guard of the transition has no upper-bound constraint,
    the relaxed guard is the result of [toRelaxedGuard] without its
    upper-bound constraints: it contains no upper bound, and this is the
    guard of the transition [handleOne] emplaces. *)
Theorem relaxedGuard_has_no_new_upper_bound :
  forall (G : GuardOps) (N : Type) (NO : NeighborOps N)
         h (neighbor : N) t neighborSuccessor staged matchBounded noMatch,
    (forall constraint, In constraint (TATransition.guard t) ->
                        Constraint.isUpperBound constraint = false) ->
    relaxedGuard neighbor t
    = List.filter (fun constraint => negb (Constraint.isUpperBound constraint))
                  (toRelaxedGuard neighbor) /\
    (forall constraint, In constraint (relaxedGuard neighbor t) ->
                        Constraint.isUpperBound constraint = false) /\
    (forall emitted,
        out_newTransitions (handleOne h neighbor t neighborSuccessor
                                      staged matchBounded noMatch)
        = staged ++ [emitted] ->
        forall constraint, In constraint (TATransition.guard emitted) ->
                           Constraint.isUpperBound constraint = false).
Proof.
  intros G N NO h neighbor t neighborSuccessor staged matchBounded noMatch Hno.
  assert (upperBounded t = false) as Hub.
  { apply not_true_iff_false. intros Hex.
    apply existsb_exists in Hex as (k & Hin & Hk). rewrite (Hno _ Hin) in Hk.
    discriminate. }
  assert (forall constraint, In constraint (relaxedGuard neighbor t) ->
                             Constraint.isUpperBound constraint = false) as Hrel.
  { intros k. rewrite (relaxedGuard_unbounded _ _ Hub), filter_In.
    intros [_ Hk]. now apply negb_true_iff in Hk. }
  split; [now apply relaxedGuard_unbounded|]. split; [exact Hrel|].
  intros emitted Hout. apply handleOne_emitted in Hout as [_ ->]. exact Hrel.
Qed.

(** C7.  For a matched and accepted transition whose reset map is the
    single entry that sets the clock [neighbor.getClockSize()] to the
    constant 0, [handleOne] returns the pair of the target and the given
    [neighborSuccessor]; apart from that it emplaces the relaxed transition
    and updates the two flags, and nothing else. *)
Theorem handleOne_internal_propagates_successor :
  forall (G : GuardOps) (N : Type) (NO : NeighborOps N)
         h (neighbor : N) t neighborSuccessor staged matchBounded noMatch d,
    match_ neighbor t = true ->
    accepted neighbor t = true ->
    TATransition.resetVars t = [(getClockSize neighbor, RConst d)] ->
    (d == 0)%Q ->
    handleOne h neighbor t neighborSuccessor staged matchBounded noMatch
    = mkHandled (Some (TATransition.target t, neighborSuccessor))
                (staged ++ [relaxedTransition neighbor t])
                (matchBounded || upperBounded t) false.
Proof.
  intros G N NO h neighbor t neighborSuccessor staged matchBounded noMatch d
         Hmatch Hacc Hresets Hzero.
  unfold handleOne. rewrite Hmatch, Hacc.
  assert (isInternal neighbor t = true) as ->; [|reflexivity].
  unfold isInternal. rewrite Hresets. simpl.
  rewrite Nat.eqb_refl. simpl. now apply Qeq_bool_iff.
Qed.

(** C8.  For a matched and accepted transition that is not of the
    internal shape, if every imprecise clock of the neighbor is reset to a
    constant that equals its own floor and is not the source of a
    clock-to-clock reset, [handleOne] returns no pair. *)
Theorem handleOne_stops_when_imprecision_resolved :
  forall (G : GuardOps) (N : Type) (NO : NeighborOps N)
         h (neighbor : N) t neighborSuccessor staged matchBounded noMatch,
    match_ neighbor t = true ->
    accepted neighbor t = true ->
    isInternal neighbor t = false ->
    (forall clock,
        In clock (impreciseClocks neighbor) ->
        (exists d, In (clock, RConst d) (TATransition.resetVars t)
                   /\ (d == inject_Z (Qfloor d))%Q) /\
        (forall reset, In reset (TATransition.resetVars t) ->
                       snd reset <> RClock clock)) ->
    result (handleOne h neighbor t neighborSuccessor staged matchBounded noMatch)
    = None.
Proof.
  intros G N NO h neighbor t neighborSuccessor staged matchBounded noMatch
         Hmatch Hacc Hext Hall.
  unfold handleOne. rewrite Hmatch, Hacc, Hext.
  destruct (allConstant h t); [reflexivity|].
  assert (forallb (updatedToPrecise (TATransition.resetVars t))
                  (impreciseClocks neighbor) = true) as ->; [|reflexivity].
  apply forallb_forall. intros clock Hin.
  destruct (Hall clock Hin) as ((d & Hd & Hint) & Hunused).
  eapply updatedToPrecise_intro; eassumption.
Qed.

(** ** [run] *)

Section RunFacts.
Context {G : GuardOps} {N : Type} {NO : NeighborOps N}.

Lemma scanTransitions_staged h (neighbor neighborSuccessor : N) transitions :
  forall staged ws matchBounded noMatch,
    fst (fst (fst (scanTransitions h neighbor neighborSuccessor transitions
                                   staged ws matchBounded noMatch)))
    = staged ++ map (relaxedTransition neighbor)
                    (List.filter (emits neighbor) transitions).
Proof.
  induction transitions as [|t rest IH]; intros staged ws matchBounded noMatch;
    simpl.
  - now rewrite app_nil_r.
  - rewrite IH, handleOne_newTransitions.
    destruct (emits neighbor t); simpl; [|reflexivity].
    now rewrite <- app_assoc.
Qed.









End RunFacts.


(** * Further properties *)

(** ** The two loops of [mergeNondeterministicBranching] *)

Lemma In_sublist {A} (l k : list A) (x : A) :
  sublist l k -> In x l -> In x k.
Proof.
  intros Hsub Hin. apply list_elem_of_In.
  eapply elem_of_sublist; [|eassumption]. now apply list_elem_of_In.
Qed.

Section MergeMore.
Context {G : GuardOps}.
Variable impreciseConstantAssignSize : Resets -> nat.
Variable h : heap.
Variable NDEBUG : bool.

Abbreviation absorb' := (absorb impreciseConstantAssignSize h NDEBUG).
Abbreviation mergeLoop' := (mergeLoop impreciseConstantAssignSize h NDEBUG).
Abbreviation mergeEntries' := (mergeEntries impreciseConstantAssignSize h NDEBUG).

Lemma removeWeaker_nonempty kept rest :
  kept ++ rest <> [] -> removeWeaker kept rest <> [].
Proof.
  revert kept. induction rest as [|it2 rest IH]; intros kept Hne.
  - simpl. now rewrite app_nil_r in Hne.
  - simpl. rewrite removable_self.
    destruct (removable it2 (kept ++ rest)) eqn:Hr.
    + apply IH. apply removable_iff in Hr as (other & Hin & _).
      intros Hnil. rewrite Hnil in Hin. exact Hin.
    + apply IH. rewrite <- app_assoc. now destruct kept.
Qed.

Lemma mergeInto_sameJump it2 it3 :
  sameJump (mergeInto impreciseConstantAssignSize it2 it3) it2 \/
  sameJump (mergeInto impreciseConstantAssignSize it2 it3) it3.
Proof.
  unfold mergeInto, sameJump. destruct (_ <? _); simpl; auto.
Qed.

Lemma absorb_shape rest :
  forall it2 r,
    absorb' it2 rest = Done r ->
    sublist (snd r) rest /\
    exists t, In t (it2 :: rest) /\ sameJump (fst r) t.
Proof.
  induction rest as [|it3 rest IH]; intros it2 r; simpl.
  - intros [= <-]. simpl. split; [constructor|].
    exists it2. unfold sameJump. auto.
  - destruct (satisfiable _).
    + destruct (NDEBUG || sameAcceptance h it2 it3); [|discriminate].
      intros Hr. destruct (IH _ _ Hr) as (Hsub & t & Hin & Hj).
      split; [now apply sublist_cons|].
      destruct Hin as [<-|Hin].
      * destruct (mergeInto_sameJump it2 it3) as [[H1 H2]|[H1 H2]];
          [exists it2|exists it3]; (split; [simpl; auto|]);
          destruct Hj as [Ht Hr']; split; congruence.
      * exists t. simpl. auto.
    + destruct (absorb' it2 rest) as [q|] eqn:E; simpl; [|discriminate].
      intros [= <-]. simpl.
      destruct (IH _ _ E) as (Hsub & t & Hin & Hj).
      split; [now apply sublist_skip|].
      exists t. split; [|assumption]. destruct Hin; simpl; auto.
Qed.

Lemma mergeLoop_shape n :
  forall ts out,
    length ts <= n ->
    mergeLoop' ts = Done out ->
    length out <= length ts /\
    (ts <> [] -> out <> []) /\
    forall m, In m out -> exists t, In t ts /\ sameJump m t.
Proof.
  induction n as [|n IH]; intros ts out Hn.
  - destruct ts; [|simpl in Hn; lia]. simp mergeLoop. intros [= <-].
    simpl. repeat split; auto. intros m [].
  - destruct ts as [|it2 rest].
    { simp mergeLoop. intros [= <-]. simpl. repeat split; auto. intros m []. }
    rewrite mergeLoop_cons.
    destruct (absorb' it2 rest) as [r|] eqn:Habs; simpl; [|discriminate].
    destruct (absorb_shape _ _ _ Habs) as (Hsub & t0 & Hin0 & Hj0).
    pose proof (sublist_length _ _ Hsub) as Hlen.
    destruct (mergeLoop' (snd r)) as [out'|] eqn:Hloop; simpl; [|discriminate].
    intros [= <-].
    simpl in Hn. destruct (IH (snd r) out' ltac:(lia) Hloop) as (Hlen' & _ & Hall).
    split; [simpl; lia|]. split; [discriminate|].
    intros m [<-|Hm]; [eauto|].
    destruct (Hall m Hm) as (t & Hin & Hj). exists t. split; [|assumption].
    right. eapply In_sublist; eassumption.
Qed.

(** On a vector without jointly satisfiable pairs the second loop changes
    nothing. *)
Lemma absorb_disjoint it2 rest :
  Forall (fun u => overlap it2 u = false) rest ->
  absorb' it2 rest = Done (it2, rest).
Proof.
  induction 1 as [|it3 rest Hov _ IH]; [reflexivity|].
  rewrite absorb_skip by assumption. now rewrite IH.
Qed.

Lemma mergeLoop_disjoint ts :
  ForallOrdPairs (fun a b => overlap a b = false) ts ->
  mergeLoop' ts = Done ts.
Proof.
  induction 1 as [|it2 rest Hhead _ IH]; [now simp mergeLoop|].
  rewrite mergeLoop_cons, absorb_disjoint.
  - simpl. now rewrite IH.
  - apply List.Forall_forall. rewrite List.Forall_forall in Hhead. exact Hhead.
Qed.

Lemma deterministicFrom_pairs ts :
  deterministicFrom [] ts = true ->
  ForallOrdPairs (fun a b => overlap a b = false) ts.
Proof.
  induction ts as [|t rest IH]; intros Hd; [constructor|].
  constructor.
  - apply List.Forall_forall. intros u Hin.
    apply not_true_iff_false. intros Hov.
    apply list_elem_of_In, list_elem_of_lookup in Hin as (j & Hj).
    assert (deterministicFrom [] (t :: rest) = false) as Hf; [|congruence].
    apply deterministicFrom_false. exists 0, (S j), t, u. simpl.
    repeat split; auto; lia.
  - apply IH. apply not_false_iff_true. intros Hf.
    apply deterministicFrom_false in Hf as (i & j & ti & tj & Hij & _ & Hi & Hj & Hov).
    assert (deterministicFrom [] (t :: rest) = false) as Hf'; [|congruence].
    apply deterministicFrom_false. exists (S i), (S j), ti, tj. simpl in *.
    repeat split; auto; lia.
Qed.

Lemma pairs_sublist (l k : list TATransition) :
  sublist l k ->
  ForallOrdPairs (fun a b => overlap a b = false) k ->
  ForallOrdPairs (fun a b => overlap a b = false) l.
Proof.
  induction 1 as [|x l k Hsub IH|x l k Hsub IH]; intros Hk.
  - constructor.
  - inversion Hk as [|? ? Hhead Htail]; subst. constructor; [|auto].
    apply List.Forall_forall. rewrite List.Forall_forall in Hhead.
    intros u Hu. apply Hhead. eapply In_sublist; eassumption.
  - inversion Hk; subst. auto.
Qed.

Lemma mergeEntries_deterministic entries :
  forallb (fun e => deterministicFrom [] (snd e)) entries = true ->
  mergeEntries' entries
  = Done (map (fun e => (fst e, removeWeaker [] (snd e))) entries).
Proof.
  induction entries as [|e entries IH]; simpl; [reflexivity|].
  intros Hd. apply andb_prop in Hd as [He Hrest].
  rewrite mergeLoop_disjoint.
  - simpl. now rewrite (IH Hrest).
  - destruct (removeWeaker_shape [] (snd e)) as (l & -> & Hsub). simpl.
    eapply pairs_sublist; [eassumption|]. now apply deterministicFrom_pairs.
Qed.

Lemma mergeEntries_actions entries :
  forall merged,
    mergeEntries' entries = Done merged ->
    map fst merged = map fst entries /\
    Forall2 (fun e' e => length (snd e') <= length (snd e)
                         /\ (snd e <> [] -> snd e' <> [])
                         /\ forall m, In m (snd e') ->
                                      exists t, In t (snd e) /\ sameJump m t)
            merged entries.
Proof.
  induction entries as [|e entries IH]; intros merged; simpl.
  - intros [= <-]. split; [reflexivity|constructor].
  - destruct (mergeLoop' (removeWeaker [] (snd e))) as [ts|] eqn:Hloop; simpl;
      [|discriminate].
    destruct (mergeEntries' entries) as [rest|] eqn:Hrest; simpl; [|discriminate].
    intros [= <-]. destruct (IH _ eq_refl) as [Hfst Hall].
    split; [simpl; now rewrite Hfst|]. constructor; [|assumption]. simpl.
    destruct (mergeLoop_shape _ _ _ (Nat.le_refl _) Hloop) as (Hlen & Hne & Hj).
    destruct (removeWeaker_shape [] (snd e)) as (l & Hl & Hsub). simpl in Hl.
    pose proof (sublist_length _ _ Hsub). rewrite Hl in *.
    split; [lia|]. split.
    + intros Hnil. apply Hne. rewrite <- Hl. now apply removeWeaker_nonempty.
    + intros m Hm. destruct (Hj m Hm) as (t & Hin & Hjt). exists t.
      split; [|assumption]. eapply In_sublist; eassumption.
Qed.
End MergeMore.

(** ** More on [handleOne] *)

Section HandlerMore.
Context {G : GuardOps} {N : Type} {NO : NeighborOps N}.

Lemma handleOne_flags h (neighbor : N) t neighborSuccessor staged matchBounded noMatch :
  out_matchBounded (handleOne h neighbor t neighborSuccessor staged matchBounded noMatch)
  = matchBounded || (match_ neighbor t && upperBounded t) /\
  out_noMatch (handleOne h neighbor t neighborSuccessor staged matchBounded noMatch)
  = noMatch && negb (match_ neighbor t).
Proof.
  unfold handleOne.
  destruct (match_ neighbor t); simpl;
    [|now rewrite orb_false_r, andb_true_r].
  rewrite andb_false_r.
  destruct (accepted neighbor t); simpl; [|auto].
  destruct (isInternal neighbor t); [auto|].
  destruct (allConstant h t); [auto|].
  now destruct (forallb _ (impreciseClocks neighbor)).
Qed.

Lemma handleOne_result_Some h (neighbor : N) t neighborSuccessor staged
      matchBounded noMatch found :
  result (handleOne h neighbor t neighborSuccessor staged matchBounded noMatch)
  = Some found ->
  emits neighbor t = true /\
  fst found = TATransition.target t /\
  (snd found = neighborSuccessor \/
   snd found = makeAfterExternalTransition neighbor (TATransition.resetVars t)
                 (targetClockSize h (TATransition.target t))).
Proof.
  unfold handleOne, emits.
  destruct (match_ neighbor t); simpl; [|discriminate].
  destruct (accepted neighbor t); simpl; [|discriminate].
  destruct (isInternal neighbor t); simpl; [intros [= <-]; auto|].
  destruct (allConstant h t); simpl; [discriminate|].
  destruct (forallb _ (impreciseClocks neighbor)); simpl; [discriminate|].
  intros [= <-]. auto.
Qed.

Lemma allConstant_iff h t :
  allConstant h t = true <->
  targetClockSize h (TATransition.target t) <= length (TATransition.resetVars t) /\
  forall reset, In reset (TATransition.resetVars t) -> index (snd reset) = 0.
Proof.
  unfold allConstant. rewrite andb_true_iff, Nat.leb_le, forallb_forall.
  split; intros [Hsize Hall]; (split; [assumption|]); intros reset Hin.
  - now apply Nat.eqb_eq, Hall.
  - now apply Nat.eqb_eq, Hall.
Qed.

Lemma updatedToPrecise_iff resetVars clock :
  updatedToPrecise resetVars clock = true <->
  (exists reset, In reset resetVars /\ fst reset = clock /\
                 (index (snd reset) = 1 \/
                  exists d, snd reset = RConst d /\ (d == inject_Z (Qfloor d))%Q)) /\
  (forall reset, In reset resetVars -> snd reset <> RClock clock).
Proof.
  unfold updatedToPrecise. rewrite andb_true_iff, negb_true_iff, existsb_exists.
  split; intros [Hit Hit2]; split.
  - destruct Hit as ([c v] & Hin & Hp). exists (c, v). split; [assumption|].
    simpl in *. apply andb_prop in Hp as [Hc Hv]. apply Nat.eqb_eq in Hc.
    split; [assumption|]. destruct v as [d|y]; simpl in *.
    + right. exists d. split; [reflexivity|]. now apply Qeq_bool_iff.
    + now left.
  - intros reset Hin Heq. apply not_true_iff_false in Hit2. apply Hit2.
    apply existsb_exists. exists reset. split; [assumption|].
    rewrite Heq. simpl. apply Nat.eqb_refl.
  - destruct Hit as ([c v] & Hin & Hc & Hv). exists (c, v). split; [assumption|].
    simpl in *. rewrite Hc, Nat.eqb_refl. simpl.
    destruct Hv as [Hv|(d & Hd & Hint)].
    + now destruct v.
    + rewrite Hd. simpl. now apply Qeq_bool_iff.
  - apply not_true_iff_false. intros Hex.
    apply existsb_exists in Hex as ([c v] & Hin & Hp). simpl in Hp.
    destruct v as [d|y]; simpl in Hp; [discriminate|].
    apply Nat.eqb_eq in Hp. subst y. now apply (Hit2 _ Hin).
Qed.

(** *** [targetClockSize] *)

Lemma fold_max_list_max {A} (f : A -> nat) (l : list A) (s : nat) :
  fold_left (fun size a => Nat.max size (f a)) l s = Nat.max s (list_max (map f l)).
Proof.
  revert s. induction l as [|a l IH]; intros s; simpl; [lia|].
  rewrite IH. lia.
Qed.

Lemma fold_fold_max {A B} (f : B -> nat) (g : A -> list B) (l : list A) (s : nat) :
  fold_left (fun size a => fold_left (fun size b => Nat.max size (f b)) (g a) size) l s
  = Nat.max s (list_max (map f (flat_map g l))).
Proof.
  revert s. induction l as [|a l IH]; intros s; simpl; [lia|].
  rewrite IH, fold_max_list_max, map_app, list_max_app. lia.
Qed.

Lemma fold_entries_max (entries : list (Alphabet * list TATransition)) (s : nat) :
  fold_left (fun size entry =>
               fold_left (fun size cTransition =>
                            fold_left (fun size constraint =>
                                         Nat.max size (Constraint.x constraint + 1))
                                      (TATransition.guard cTransition) size)
                         (snd entry) size) entries s
  = Nat.max s (list_max (map (fun constraint => Constraint.x constraint + 1)
                             (flat_map TATransition.guard (flat_map snd entries)))).
Proof.
  revert s. induction entries as [|e entries IH]; intros s; simpl; [lia|].
  rewrite IH, fold_fold_max, flat_map_app, map_app, list_max_app.
  symmetry. apply Nat.max_assoc.
Qed.

Lemma targetClockSize_list_max h target :
  targetClockSize h target = list_max (clocksRead h target).
Proof. unfold targetClockSize, clocksRead. now rewrite fold_entries_max. Qed.

Lemma list_max_In (l : list nat) : l <> [] -> In (list_max l) l.
Proof.
  induction l as [|a l IH]; [congruence|]. intros _. simpl.
  destruct l as [|b l]; [left; simpl; lia|].
  destruct (Nat.max_spec a (list_max (b :: l))) as [[_ ->]|[_ ->]].
  - right. apply IH. discriminate.
  - now left.
Qed.
End HandlerMore.

(** ** The rounds of [run] *)

Section RoundFacts.
Context {G : GuardOps} {N : Type} {NO : NeighborOps N}.

Lemma scanTransitions_flags h (neighbor neighborSuccessor : N) transitions :
  forall staged ws matchBounded noMatch,
    snd (fst (scanTransitions h neighbor neighborSuccessor transitions
                              staged ws matchBounded noMatch))
    = matchBounded
      || existsb (fun t => match_ neighbor t && upperBounded t) transitions /\
    snd (scanTransitions h neighbor neighborSuccessor transitions
                         staged ws matchBounded noMatch)
    = noMatch && forallb (fun t => negb (match_ neighbor t)) transitions.
Proof.
  induction transitions as [|t rest IH]; intros staged ws matchBounded noMatch;
    simpl.
  - now rewrite orb_false_r, andb_true_r.
  - destruct (handleOne_flags h neighbor t neighborSuccessor staged
                              matchBounded noMatch) as [-> ->].
    destruct (IH (out_newTransitions
                    (handleOne h neighbor t neighborSuccessor staged
                               matchBounded noMatch))
                 (match result (handleOne h neighbor t neighborSuccessor staged
                                          matchBounded noMatch) with
                  | Some found => insertNeighbor found ws
                  | None => ws
                  end)
                 (matchBounded || match_ neighbor t && upperBounded t)
                 (noMatch && negb (match_ neighbor t))) as [-> ->].
    now rewrite !orb_assoc, !andb_assoc.
Qed.

Lemma scanTransitions_unmatched h (neighbor neighborSuccessor : N) transitions :
  forall staged ws matchBounded noMatch,
    (forall t, In t transitions -> match_ neighbor t = false) ->
    snd (fst (fst (scanTransitions h neighbor neighborSuccessor transitions
                                   staged ws matchBounded noMatch))) = ws.
Proof.
  induction transitions as [|t rest IH]; intros staged ws matchBounded noMatch Hno;
    simpl; [reflexivity|].
  rewrite IH by (intros u Hu; apply Hno; now right).
  unfold handleOne. now rewrite (Hno t) by now left.
Qed.

Lemma deref_Some (h : heap) p s : h !! p = Some s -> deref h p = s.
Proof. unfold deref. intros Hp. replace (h !! p) with (Some s). reflexivity. Qed.

Lemma setTransitions_lookup h state k action ts s :
  h !! state = Some s ->
  setTransitions h state k action ts !! state
  = Some (TAState.mk (TAState.isMatch s) (<[k := (action, ts)]> (TAState.next s))) /\
  (forall q, q <> state -> setTransitions h state k action ts !! q = h !! q) /\
  length (setTransitions h state k action ts) = length h.
Proof.
  intros Hs. unfold setTransitions, deref.
  replace (h !! state) with (Some s). simpl.
  split; [apply list_lookup_insert_eq; eapply lookup_lt_Some; eassumption|].
  split; [|apply length_insert].
  intros q Hq. apply list_lookup_insert_ne. auto.
Qed.

Lemma insert_processed {A} (F : A -> A) (es : list A) (k : nat) (e : A) :
  es !! k = Some e ->
  <[k := F e]> (map F (take k es) ++ drop k es)
  = map F (take (S k) es) ++ drop (S k) es.
Proof.
  intros Hk. pose proof (lookup_lt_Some _ _ _ Hk) as Hlt.
  rewrite insert_app_r_alt by (rewrite length_map, length_take; lia).
  rewrite length_map, length_take, Nat.min_l, Nat.sub_diag by lia.
  rewrite (drop_S _ _ _ Hk), (take_S_r _ _ _ Hk), map_app. simpl.
  now rewrite <- app_assoc.
Qed.

Lemma scanActions_table state (neighbor : N) (es : list (Alphabet * list TATransition)) n :
  forall k sc,
    k + n = length es ->
    TAState.next (deref (arena sc) state)
    = map (relaxEntry neighbor) (take k es) ++ drop k es ->
    let sc' := scanActions n k state neighbor sc in
    TAState.next (deref (arena sc') state) = map (relaxEntry neighbor) es /\
    TAState.isMatch (deref (arena sc') state)
    = TAState.isMatch (deref (arena sc) state) /\
    (forall q, q <> state -> arena sc' !! q = arena sc !! q) /\
    length (arena sc') = length (arena sc) /\
    bounded sc'
    = bounded sc
      || existsb (fun t => match_ neighbor t && upperBounded t)
                 (flat_map snd (drop k es)) /\
    unmatched sc'
    = unmatched sc
      && forallb (fun t => negb (match_ neighbor t)) (flat_map snd (drop k es)) /\
    ((forall t, In t (flat_map snd (drop k es)) -> match_ neighbor t = false) ->
     workSet sc' = workSet sc).
Proof.
  induction n as [|n IH]; intros k sc Hlen Htable; simpl.
  - rewrite Htable. assert (k = length es) as -> by lia.
    rewrite firstn_all, drop_all, app_nil_r. simpl.
    now rewrite orb_false_r, andb_true_r.
  - assert (k < length es) as Hlt by lia.
    destruct (lookup_lt_is_Some_2 es k Hlt) as [[action ts] Hk].
    assert (TAState.next (deref (arena sc) state) !! k = Some (action, ts)) as Hk'.
    { rewrite Htable, lookup_app_r by (rewrite length_map, length_take; lia).
      rewrite length_map, length_take, Nat.min_l, Nat.sub_diag by lia.
      now rewrite lookup_drop, Nat.add_0_r. }
    rewrite Hk'.
    assert (exists s, arena sc !! state = Some s) as [s Hs].
    { unfold deref in Hk'. destruct (arena sc !! state); [eauto|discriminate]. }
    pose proof (scanTransitions_staged (arena sc) neighbor
                  (successor neighbor action) ts []
                  (workSet sc) (bounded sc) (unmatched sc)) as Hstaged.
    destruct (scanTransitions_flags (arena sc) neighbor
                (successor neighbor action) ts []
                (workSet sc) (bounded sc) (unmatched sc)) as [Hmb Hnm].
    pose proof (scanTransitions_unmatched (arena sc) neighbor
                  (successor neighbor action) ts []
                  (workSet sc) (bounded sc) (unmatched sc)) as Hws.
    destruct (scanTransitions _ _ _ _ _ _ _ _) as [[[staged ws] mb] nm].
    simpl in Hstaged, Hmb, Hnm, Hws. subst staged mb nm.
    destruct (setTransitions_lookup (arena sc) state k action
                (ts ++ map (relaxedTransition neighbor)
                           (List.filter (emits neighbor) ts)) s Hs)
      as (Hnew & Hother & Hlength).
    match goal with
    | |- context [scanActions n (S k) state neighbor ?sc1] =>
        specialize (IH (S k) sc1)
    end.
    simpl in IH. rewrite (deref_Some _ _ _ Hnew) in IH. simpl in IH.
    destruct IH as (Hnext & Hmatch & Hq & Hl & Hb & Hu & Hw).
    + lia.
    + rewrite (deref_Some _ _ _ Hs) in Htable. rewrite Htable.
      apply (insert_processed (relaxEntry neighbor) es k (action, ts) Hk).
    + split; [exact Hnext|].
      split; [now rewrite Hmatch, (deref_Some _ _ _ Hs)|].
      split; [intros q Hne; rewrite Hq by assumption; now apply Hother|].
      split; [congruence|].
      rewrite Hb, Hu, (drop_S _ _ _ Hk). simpl.
      split; [now rewrite existsb_app, orb_assoc|].
      split; [now rewrite forallb_app, andb_assoc|].
      intros Hno. rewrite Hw.
      * apply Hws. intros t Hin. apply Hno. apply in_or_app. now left.
      * intros t Hin. apply Hno. apply in_or_app. now right.
Qed.

Lemma relaxEntry_unmatched (neighbor : N) e :
  (forall t, In t (snd e) -> match_ neighbor t = false) ->
  relaxEntry neighbor e = e.
Proof.
  intros Hno. unfold relaxEntry.
  replace (List.filter (emits neighbor) (snd e)) with (@nil TATransition).
  - simpl. rewrite app_nil_r. now destruct e.
  - symmetry. induction (snd e) as [|t ts IH]; [reflexivity|]. simpl.
    unfold emits at 1. rewrite (Hno t) by now left. simpl.
    apply IH. intros u Hu. apply Hno. now right.
Qed.

Lemma map_relaxEntry_unmatched (neighbor : N) es :
  (forall t, In t (flat_map snd es) -> match_ neighbor t = false) ->
  map (relaxEntry neighbor) es = es.
Proof.
  induction es as [|e es IH]; intros Hno; [reflexivity|]. simpl. f_equal.
  - apply relaxEntry_unmatched. intros t Ht. apply Hno. simpl.
    apply in_or_app. now left.
  - apply IH. intros t Ht. apply Hno. simpl. apply in_or_app. now right.
Qed.

Lemma round_table state (neighbor : N) h ws noMatch :
  let es := TAState.next (deref h state) in
  let sc := round state neighbor h ws noMatch in
  TAState.next (deref (arena sc) state) = map (relaxEntry neighbor) es /\
  TAState.isMatch (deref (arena sc) state) = TAState.isMatch (deref h state) /\
  (forall q, q <> state -> arena sc !! q = h !! q) /\
  length (arena sc) = length h /\
  bounded sc
  = existsb (fun t => match_ neighbor t && upperBounded t) (flat_map snd es) /\
  unmatched sc
  = noMatch && forallb (fun t => negb (match_ neighbor t)) (flat_map snd es) /\
  ((forall t, In t (flat_map snd es) -> match_ neighbor t = false) ->
   workSet sc = ws).
Proof.
  intros es sc.
  apply (scanActions_table state neighbor es (length es) 0
                           (mkScan h ws false noMatch)); reflexivity.
Qed.

Lemma round_unmatched state (neighbor : N) h ws noMatch :
  (forall t, In t (flat_map snd (TAState.next (deref h state))) ->
             match_ neighbor t = false) ->
  round state neighbor h ws noMatch = mkScan h ws false noMatch.
Proof.
  intros Hno.
  destruct (round_table state neighbor h ws noMatch)
    as (Hnext & Hmatch & Hq & Hlen & Hb & Hu & Hw).
  assert (arena (round state neighbor h ws noMatch) = h) as Harena.
  { apply list_eq. intros q. destruct (decide (q = state)) as [->|Hne]; [|auto].
    destruct (h !! state) as [s|] eqn:Hs.
    - assert (state < length (arena (round state neighbor h ws noMatch))) as Hlt
          by (rewrite Hlen; eapply lookup_lt_Some; eassumption).
      destruct (lookup_lt_is_Some_2 _ _ Hlt) as [s' Hs'].
      rewrite (map_relaxEntry_unmatched _ _ Hno) in Hnext.
      rewrite (deref_Some _ _ _ Hs'), (deref_Some _ _ _ Hs) in Hnext, Hmatch.
      etransitivity; [exact Hs'|]. f_equal.
      destruct s' as [m' n'], s as [m n]. simpl in *. now subst m' n'.
    - etransitivity; [|symmetry; exact Hs].
      apply lookup_ge_None_2. rewrite Hlen. now apply lookup_ge_None_1. }
  destruct (round state neighbor h ws noMatch) as [a w b u]. simpl in *.
  subst a. rewrite (Hw Hno). f_equal.
  - rewrite Hb. apply not_true_iff_false. intros Hex.
    apply existsb_exists in Hex as (t & Hin & Hp).
    rewrite (Hno t Hin) in Hp. discriminate.
  - rewrite Hu. replace (forallb _ _) with true; [apply andb_true_r|].
    symmetry. apply forallb_forall. intros t Hin. now rewrite (Hno t Hin).
Qed.

Lemma relax_unmatched fuel :
  forall state (neighbor : N) h ws,
    (forall i t, In t (flat_map snd (TAState.next (deref h state))) ->
                 match_ (elapse i neighbor) t = false) ->
    relax fuel state neighbor h ws true = (h, ws, false).
Proof.
  induction fuel as [|fuel IH]; intros state neighbor h ws Hno; [reflexivity|].
  simpl. rewrite round_unmatched by (intros t Hin; apply (Hno 0 t Hin)).
  simpl. apply IH. intros i t Hin.
  specialize (Hno (S i) t Hin). unfold elapse in *.
  now rewrite Nat.iter_succ_r in Hno.
Qed.
End RoundFacts.

Section JumpFacts.
Context {G : GuardOps} {N : Type} {NO : NeighborOps N}.

Lemma sameJump_refl t : sameJump t t.
Proof. split; reflexivity. Qed.

Lemma sameJump_trans a b c : sameJump a b -> sameJump b c -> sameJump a c.
Proof. intros [] []. split; congruence. Qed.

Lemma entries_jump_refl (es : list (Alphabet * list TATransition)) :
  Forall2 (fun e' e =>
             fst e' = fst e /\
             forall t', In t' (snd e') -> exists t, In t (snd e) /\ sameJump t' t)
          es es.
Proof.
  induction es as [|e es IH]; constructor; [|assumption].
  split; [reflexivity|]. intros t' Hin. exists t'. auto using sameJump_refl.
Qed.

Lemma jumpsFrom_refl h : jumpsFrom h h.
Proof.
  split; [reflexivity|]. intros q s' Hq. exists s'.
  split; [assumption|apply entries_jump_refl].
Qed.

Lemma jumpsFrom_trans h1 h2 h3 :
  jumpsFrom h1 h2 -> jumpsFrom h2 h3 -> jumpsFrom h1 h3.
Proof.
  intros [Hl1 H1] [Hl2 H2]. split; [congruence|].
  intros q s3 Hq3. destruct (H2 _ _ Hq3) as (s2 & Hq2 & F23).
  destruct (H1 _ _ Hq2) as (s1 & Hq1 & F12).
  exists s1. split; [assumption|].
  revert F12. generalize (TAState.next s1).
  induction F23 as [|e3 e2 es3 es2 [Ha Hj] _ IH]; intros es1 F12;
    inversion F12 as [|? e1 ? es1' [Ha' Hj'] F12']; subst; constructor.
  - split; [congruence|]. intros t3 Hin3.
    destruct (Hj _ Hin3) as (t2 & Hin2 & J32).
    destruct (Hj' _ Hin2) as (t1 & Hin1 & J21).
    exists t1. split; [assumption|]. eapply sameJump_trans; eassumption.
  - now apply IH.
Qed.

Lemma relaxEntries_jump (neighbor : N) es :
  Forall2 (fun e' e =>
             fst e' = fst e /\
             forall t', In t' (snd e') -> exists t, In t (snd e) /\ sameJump t' t)
          (map (relaxEntry neighbor) es) es.
Proof.
  induction es as [|e es IH]; simpl; constructor; [|assumption].
  split; [reflexivity|]. simpl. intros t' Hin.
  apply in_app_or in Hin as [Hin|Hin].
  - exists t'. auto using sameJump_refl.
  - apply in_map_iff in Hin as (t & <- & Hin). apply filter_In in Hin as [Hin _].
    exists t. split; [assumption|]. split; reflexivity.
Qed.

Lemma round_jumps state (neighbor : N) h ws noMatch :
  jumpsFrom h (arena (round state neighbor h ws noMatch)).
Proof.
  destruct (round_table state neighbor h ws noMatch)
    as (Hnext & _ & Hq & Hlen & _).
  split; [assumption|]. intros q s' Hs'.
  destruct (decide (q = state)) as [->|Hne].
  - assert (state < length h) as Hlt
        by (rewrite <- Hlen; eapply lookup_lt_Some; eassumption).
    destruct (lookup_lt_is_Some_2 _ _ Hlt) as [s Hs].
    exists s. split; [assumption|].
    rewrite (deref_Some _ _ _ Hs'), (deref_Some _ _ _ Hs) in Hnext.
    rewrite Hnext. apply relaxEntries_jump.
  - exists s'. split; [|apply entries_jump_refl].
    etransitivity; [symmetry; apply Hq; assumption|assumption].
Qed.

Lemma relax_jumps fuel :
  forall state (neighbor : N) h ws noMatch,
    jumpsFrom h (fst (fst (relax fuel state neighbor h ws noMatch))).
Proof.
  induction fuel as [|fuel IH]; intros state neighbor h ws noMatch; simpl;
    [apply jumpsFrom_refl|].
  pose proof (round_jumps state neighbor h ws noMatch) as Hround.
  destruct (bounded _ || unmatched _); [|exact Hround].
  eapply jumpsFrom_trans; [exact Hround|apply IH].
Qed.

Lemma runLoop_jumps fuel :
  forall h (ws : WorkSet) visited,
    jumpsFrom h (fst (fst (runLoop fuel h ws visited))).
Proof.
  induction fuel as [|fuel IH]; intros h ws visited; simpl;
    [apply jumpsFrom_refl|].
  destruct ws as [|[state neighbor] ws']; [apply jumpsFrom_refl|].
  destruct (existsb _ visited); [apply IH|].
  pose proof (relax_jumps fuel state neighbor h ws' true) as Hrelax.
  destruct (relax fuel state neighbor h ws' true) as [[h' ws''] [|]];
    simpl in Hrelax; [|exact Hrelax].
  eapply jumpsFrom_trans; [exact Hrelax|apply IH].
Qed.
End JumpFacts.

(** ** Further statements *)

(** X1.  The first loop of [mergeNondeterministicBranching] only removes
    transitions, keeps the order of the others, and never empties a
    vector. *)
Theorem removeWeaker_sublist_nonempty :
  forall (G : GuardOps) (t : TATransition) (ts : list TATransition),
    sublist (removeWeaker [] (t :: ts)) (t :: ts) /\
    removeWeaker [] (t :: ts) <> [].
Proof.
  intros G t ts. split.
  - destruct (removeWeaker_shape [] (t :: ts)) as (l & -> & Hsub). exact Hsub.
  - apply removeWeaker_nonempty. discriminate.
Qed.

(** X2.  When [mergeNondeterministicBranching] returns, it has touched the
    state it was called on only: the arena has the same size, the other
    states and [isMatch] are unchanged, the actions are the same in the
    same order, no vector has grown, no non-empty vector has become empty,
    and every transition that is left has the target and the reset map of
    a transition that was in the same vector. *)
Theorem mergeNondeterministicBranching_frame :
  forall (G : GuardOps) (cnt : Resets -> nat) (h : heap) (NDEBUG : bool)
         (p : StatePtr) h',
    mergeNondeterministicBranching cnt h NDEBUG p = Done h' ->
    length h' = length h /\
    (forall q, q <> p -> h' !! q = h !! q) /\
    TAState.isMatch (deref h' p) = TAState.isMatch (deref h p) /\
    map fst (TAState.next (deref h' p)) = map fst (TAState.next (deref h p)) /\
    Forall2 (fun e' e =>
               length (snd e') <= length (snd e) /\
               (snd e <> [] -> snd e' <> []) /\
               forall m, In m (snd e') -> exists t, In t (snd e) /\ sameJump m t)
            (TAState.next (deref h' p)) (TAState.next (deref h p)).
Proof.
  intros G cnt h NDEBUG p h'. unfold mergeNondeterministicBranching.
  destruct (mergeEntries cnt h NDEBUG (TAState.next (deref h p))) as [merged|] eqn:Hm;
    simpl; [|discriminate].
  intros [= <-]. destruct (mergeEntries_actions cnt h NDEBUG _ _ Hm) as [Hfst Hall].
  split; [apply length_insert|].
  split; [intros q Hq; apply list_lookup_insert_ne; auto|].
  remember (<[p:=TAState.mk (TAState.isMatch (deref h p)) merged]> h) as h1 eqn:Hh1.
  destruct (h !! p) as [s|] eqn:Hp.
  - assert (h1 !! p = Some (TAState.mk (TAState.isMatch (deref h p)) merged)) as H1.
    { subst h1. apply list_lookup_insert_eq. eapply lookup_lt_Some; eassumption. }
    rewrite (deref_Some _ _ _ H1). simpl. auto.
  - assert (h1 = h) as ->.
    { subst h1. apply list_insert_ge. now apply lookup_ge_None_1. }
    assert (deref h p = TAState.mk false []) as Hd
        by (unfold deref; now replace (h !! p) with (@None TAState)).
    rewrite Hd in *. simpl in *. injection Hm as <-. auto.
Qed.

(** X3.  On a state that [deterministic] accepts, the second loop changes
    nothing and the assertion is never reached: the operation returns, and
    each vector is what the first loop leaves of it. *)
Theorem merge_on_deterministic_state :
  forall (G : GuardOps) (cnt : Resets -> nat) (h : heap) (NDEBUG : bool)
         (p : StatePtr),
    deterministic (deref h p) = true ->
    mergeNondeterministicBranching cnt h NDEBUG p
    = Done (<[p := TAState.mk (TAState.isMatch (deref h p))
                     (map (fun e => (fst e, removeWeaker [] (snd e)))
                          (TAState.next (deref h p)))]> h).
Proof.
  intros G cnt h NDEBUG p Hd. unfold mergeNondeterministicBranching.
  now rewrite mergeEntries_deterministic.
Qed.

(** X4.  [handleOne] returns a pair only for a transition it has relaxed:
    the neighbor matched, the relaxation was accepted and emplaced, the
    state of the pair is the target of the transition, and the neighbor of
    the pair is the given successor or the one made by
    [makeAfterExternalTransition] with the clock count of the target. *)
Theorem handleOne_propagates_only_after_relaxing :
  forall (G : GuardOps) (N : Type) (NO : NeighborOps N)
         h (neighbor : N) t neighborSuccessor staged matchBounded noMatch found,
    result (handleOne h neighbor t neighborSuccessor staged matchBounded noMatch)
    = Some found ->
    match_ neighbor t = true /\
    accepted neighbor t = true /\
    out_newTransitions (handleOne h neighbor t neighborSuccessor staged
                                  matchBounded noMatch)
    = staged ++ [relaxedTransition neighbor t] /\
    fst found = TATransition.target t /\
    (snd found = neighborSuccessor \/
     snd found = makeAfterExternalTransition neighbor (TATransition.resetVars t)
                   (targetClockSize h (TATransition.target t))).
Proof.
  intros G N NO h neighbor t neighborSuccessor staged matchBounded noMatch found Hr.
  destruct (handleOne_result_Some _ _ _ _ _ _ _ _ Hr) as (Hemits & Hfst & Hsnd).
  rewrite handleOne_newTransitions, Hemits.
  unfold emits in Hemits. apply andb_prop in Hemits as [Hm Ha]. auto.
Qed.

(** X5.  For a matched and accepted transition that is not of the internal
    shape, [handleOne] returns no pair exactly when the reset map has at
    least as many entries as the clock count of the target and assigns
    constants only, or when every imprecise clock of the neighbor is
    overwritten, by a copy of a clock or by a constant equal to its floor,
    and is not copied itself.  Otherwise it returns the target with the
    neighbor made by [makeAfterExternalTransition]. *)
Theorem handleOne_external_decision :
  forall (G : GuardOps) (N : Type) (NO : NeighborOps N)
         h (neighbor : N) t neighborSuccessor staged matchBounded noMatch,
    match_ neighbor t = true ->
    accepted neighbor t = true ->
    isInternal neighbor t = false ->
    let r := result (handleOne h neighbor t neighborSuccessor staged
                               matchBounded noMatch) in
    (r = None <->
     (targetClockSize h (TATransition.target t) <= length (TATransition.resetVars t)
      /\ forall reset, In reset (TATransition.resetVars t) -> index (snd reset) = 0)
     \/
     (forall clock,
         In clock (impreciseClocks neighbor) ->
         (exists reset,
             In reset (TATransition.resetVars t) /\ fst reset = clock /\
             (index (snd reset) = 1 \/
              exists d, snd reset = RConst d /\ (d == inject_Z (Qfloor d))%Q)) /\
         (forall reset, In reset (TATransition.resetVars t) ->
                        snd reset <> RClock clock))) /\
    (r <> None ->
     r = Some (TATransition.target t,
               makeAfterExternalTransition neighbor (TATransition.resetVars t)
                 (targetClockSize h (TATransition.target t)))).
Proof.
  intros G N NO h neighbor t neighborSuccessor staged matchBounded noMatch
         Hmatch Hacc Hext r. subst r.
  unfold handleOne. rewrite Hmatch, Hacc, Hext.
  destruct (allConstant h t) eqn:Hconst.
  { simpl. split; [|congruence]. split; [intros _|reflexivity].
    left. now apply allConstant_iff. }
  destruct (forallb (updatedToPrecise (TATransition.resetVars t))
                    (impreciseClocks neighbor)) eqn:Hall.
  { simpl. split; [|congruence]. split; [intros _|reflexivity].
    right. intros clock Hin. apply updatedToPrecise_iff.
    rewrite forallb_forall in Hall. now apply Hall. }
  simpl. split; [|reflexivity]. split; [discriminate|].
  intros [Hc|Hu]; exfalso.
  - apply allConstant_iff in Hc. congruence.
  - assert (forallb (updatedToPrecise (TATransition.resetVars t))
                    (impreciseClocks neighbor) = true) as Ht; [|congruence].
    apply forallb_forall. intros clock Hin. apply updatedToPrecise_iff. auto.
Qed.

(** X6.  [targetClockSize] exceeds the clock of every constraint on the
    transitions leaving the target, and it is the least such count: zero
    when there is no constraint, else one more than the clock of one of
    the constraints. *)
Theorem targetClockSize_least_bound :
  forall (h : heap) (target : StatePtr),
    (forall entry t constraint,
        In entry (TAState.next (deref h target)) ->
        In t (snd entry) ->
        In constraint (TATransition.guard t) ->
        Constraint.x constraint < targetClockSize h target) /\
    (clocksRead h target = [] /\ targetClockSize h target = 0 \/
     exists entry t constraint,
       In entry (TAState.next (deref h target)) /\
       In t (snd entry) /\
       In constraint (TATransition.guard t) /\
       targetClockSize h target = Constraint.x constraint + 1).
Proof.
  intros h target. rewrite targetClockSize_list_max. split.
  - intros entry t constraint He Ht Hc.
    assert (In (Constraint.x constraint + 1) (clocksRead h target)) as Hin.
    { unfold clocksRead. apply in_map_iff. exists constraint.
      split; [reflexivity|]. apply in_flat_map. exists t.
      split; [|assumption]. apply in_flat_map. eauto. }
    pose proof (proj1 (list_max_le (clocksRead h target)
                                   (list_max (clocksRead h target)))
                      (Nat.le_refl _)) as Hall.
    rewrite List.Forall_forall in Hall. specialize (Hall _ Hin). lia.
  - destruct (clocksRead h target) as [|n l] eqn:Hread; [left; auto|right].
    assert (In (list_max (n :: l)) (clocksRead h target)) as Hin
        by (rewrite Hread; apply list_max_In; discriminate).
    unfold clocksRead in Hin. apply in_map_iff in Hin as (constraint & Heq & Hin).
    apply in_flat_map in Hin as (t & Hin & Hc).
    apply in_flat_map in Hin as (entry & He & Ht).
    exists entry, t, constraint. auto.
Qed.

(** X7.  One round of the loop of [run] over the state under treatment
    turns every vector of that state into the vector followed by the
    relaxed copies of its matched and accepted transitions, in order.  It
    leaves [isMatch], the other states and the size of the arena as they
    are; [matchBounded] ends up true exactly when a matched transition has
    an upper bound, and [noMatch] stays true exactly when it was true and
    no transition matched. *)
Theorem round_relaxes_each_vector :
  forall (G : GuardOps) (N : Type) (NO : NeighborOps N)
         state (neighbor : N) h ws noMatch,
    let es := TAState.next (deref h state) in
    let sc := round state neighbor h ws noMatch in
    TAState.next (deref (arena sc) state) = map (relaxEntry neighbor) es /\
    TAState.isMatch (deref (arena sc) state) = TAState.isMatch (deref h state) /\
    (forall q, q <> state -> arena sc !! q = h !! q) /\
    length (arena sc) = length h /\
    bounded sc
    = existsb (fun t => match_ neighbor t && upperBounded t) (flat_map snd es) /\
    unmatched sc
    = noMatch && forallb (fun t => negb (match_ neighbor t)) (flat_map snd es).
Proof.
  intros G N NO state neighbor h ws noMatch es sc.
  destruct (round_table state neighbor h ws noMatch)
    as (H1 & H2 & H3 & H4 & H5 & H6 & _).
  auto 10.
Qed.

(** X8.  If some transition of the state matches the neighbor and no
    matched transition has an upper bound, the loop
    [do ... while (matchBounded || noMatch)] is left after its first
    round. *)
Theorem relax_stops_after_unbounded_match :
  forall (G : GuardOps) (N : Type) (NO : NeighborOps N)
         fuel state (neighbor : N) h ws noMatch,
    (exists t, In t (flat_map snd (TAState.next (deref h state)))
               /\ match_ neighbor t = true) ->
    (forall t, In t (flat_map snd (TAState.next (deref h state))) ->
               match_ neighbor t = true -> upperBounded t = false) ->
    relax (S fuel) state neighbor h ws noMatch
    = (arena (round state neighbor h ws noMatch),
       workSet (round state neighbor h ws noMatch), true).
Proof.
  intros G N NO fuel state neighbor h ws noMatch (t & Hin & Hm) Hub. simpl.
  destruct (round_table state neighbor h ws noMatch)
    as (_ & _ & _ & _ & Hb & Hu & _).
  rewrite Hb, Hu.
  replace (existsb _ _) with false; [replace (forallb _ _) with false|].
  - now rewrite andb_false_r.
  - symmetry. apply not_true_iff_false. intros Hall.
    rewrite forallb_forall in Hall. specialize (Hall _ Hin).
    now rewrite Hm in Hall.
  - symmetry. apply not_true_iff_false. intros Hex.
    apply existsb_exists in Hex as (u & Hu' & Hp).
    apply andb_prop in Hp as [Hmu Hbu]. rewrite (Hub u Hu' Hmu) in Hbu.
    discriminate.
Qed.

(** X9.  If no transition of the popped state matches the neighbor, now or
    after any number of time steps (in particular if the state has no
    transition), the inner loop is never left: however much fuel [run] is
    given, it has not returned and the arena is untouched. *)
Theorem run_diverges_without_match :
  forall (G : GuardOps) (N : Type) (NO : NeighborOps N)
         state (neighbor : N) h ws,
    (forall i t, In t (flat_map snd (TAState.next (deref h state))) ->
                 match_ (elapse i neighbor) t = false) ->
    forall fuel,
      fst (fst (run fuel h ((state, neighbor) :: ws))) = h /\
      snd (run fuel h ((state, neighbor) :: ws)) = false.
Proof.
  intros G N NO state neighbor h ws Hno [|fuel]; [auto|].
  unfold run. simpl. now rewrite relax_unmatched.
Qed.

(** X10.  However far [run] gets, every transition in the arena has the
    target and the reset map of a transition that was in the same vector
    of the same state before: relaxation changes guards only, and adds no
    state and no action. *)
Theorem run_keeps_targets_and_resets :
  forall (G : GuardOps) (N : Type) (NO : NeighborOps N)
         fuel h (impreciseNeighbors : list (StatePtr * N)) q s' k action ts' t',
    fst (fst (run fuel h impreciseNeighbors)) !! q = Some s' ->
    TAState.next s' !! k = Some (action, ts') ->
    In t' ts' ->
    length (fst (fst (run fuel h impreciseNeighbors))) = length h /\
    exists s ts t,
      h !! q = Some s /\
      length (TAState.next s) = length (TAState.next s') /\
      TAState.next s !! k = Some (action, ts) /\
      In t ts /\ sameJump t' t.
Proof.
  intros G N NO fuel h impreciseNeighbors q s' k action ts' t' Hq Hk Hin.
  destruct (runLoop_jumps fuel h impreciseNeighbors []) as [Hlen Hj].
  split; [exact Hlen|].
  destruct (Hj _ _ Hq) as (s & Hs & Hall).
  destruct (Forall2_lookup_l _ _ _ _ _ Hall Hk) as ([a ts] & Hk' & Ha & Hts).
  simpl in Ha, Hts. subst a. destruct (Hts _ Hin) as (t & Ht & Hjump).
  exists s, ts, t. repeat split; try assumption.
  - symmetry. eapply Forall2_length; eassumption.
  - apply Hjump.
  - apply Hjump.
Qed.

(** ** [simplifyWithZones] *)

Section SweepFacts.
Variable F : StatePtr -> list (Alphabet * list TATransition)
             -> list (Alphabet * list TATransition).

Lemma setNext_length h p es : length (setNext h p es) = length h.
Proof. apply length_insert. Qed.

Lemma setNext_other h p es q : q <> p -> setNext h p es !! q = h !! q.
Proof. intros Hq. apply list_lookup_insert_ne. auto. Qed.

Lemma deref_ext (h h' : heap) q : h' !! q = h !! q -> deref h' q = deref h q.
Proof.
  unfold deref. intros Hq.
  now replace (h' !! q) with (h !! q).
Qed.

Lemma deref_None (h : heap) p : length h <= p -> deref h p = TAState.mk false [].
Proof.
  intros Hp. unfold deref.
  now replace (h !! p) with (@None TAState) by (symmetry; now apply lookup_ge_None_2).
Qed.

Lemma setNext_same h p es :
  deref (setNext h p es) p
  = if decide (p < length h) then TAState.mk (TAState.isMatch (deref h p)) es
    else TAState.mk false [].
Proof.
  destruct (decide (p < length h)) as [Hlt|Hge].
  - apply deref_Some. now apply list_lookup_insert_eq.
  - apply deref_None. rewrite setNext_length. lia.
Qed.

Lemma setNext_id h p : setNext h p (TAState.next (deref h p)) = h.
Proof.
  unfold setNext. destruct (h !! p) as [s|] eqn:Hp.
  - rewrite (deref_Some _ _ _ Hp). apply list_insert_id.
    etransitivity; [exact Hp|]. now destruct s.
  - apply list_insert_ge. now apply lookup_ge_None_1.
Qed.

Lemma sweep_cons h p sts :
  sweep F h (p :: sts) = sweep F (setNext h p (F p (TAState.next (deref h p)))) sts.
Proof. reflexivity. Qed.

Lemma sweep_length sts : forall h, length (sweep F h sts) = length h.
Proof.
  induction sts as [|p sts IH]; intros h; [reflexivity|].
  now rewrite sweep_cons, IH, setNext_length.
Qed.

Lemma sweep_other sts :
  forall h q, ~ In q sts -> sweep F h sts !! q = h !! q.
Proof.
  induction sts as [|p sts IH]; intros h q Hq; [reflexivity|].
  rewrite sweep_cons, IH by (intros Hin; apply Hq; now right).
  apply setNext_other. intros ->. apply Hq. now left.
Qed.

Lemma sweep_isMatch sts :
  forall h q, TAState.isMatch (deref (sweep F h sts) q) = TAState.isMatch (deref h q).
Proof.
  induction sts as [|p sts IH]; intros h q; [reflexivity|].
  rewrite sweep_cons, IH. destruct (decide (q = p)) as [->|Hne].
  - rewrite setNext_same. destruct (decide (p < length h)); [reflexivity|].
    rewrite deref_None by lia. reflexivity.
  - now rewrite (deref_ext _ _ _ (setNext_other _ _ _ _ Hne)).
Qed.

(** A property that every rewriting establishes holds for the swept
    states. *)
Lemma sweep_established (P : StatePtr -> list (Alphabet * list TATransition) -> Prop) sts :
  (forall p es, P p (F p es)) ->
  (forall p, P p []) ->
  forall h p, In p sts -> P p (TAState.next (deref (sweep F h sts) p)).
Proof.
  intros HF Hnil. induction sts as [|q sts IH]; intros h p Hin; [destruct Hin|].
  rewrite sweep_cons. destruct (in_dec Nat.eq_dec p sts) as [Hp|Hp]; [now apply IH|].
  destruct Hin as [<-|Hin]; [|contradiction].
  rewrite (deref_ext _ _ _ (sweep_other _ _ _ Hp)), setNext_same.
  destruct (decide (q < length h)); simpl; auto.
Qed.

(** A reflexive and transitive relation that every rewriting respects
    relates the tables after the sweep to the tables before. *)
Lemma sweep_related (R : list (Alphabet * list TATransition)
                         -> list (Alphabet * list TATransition) -> Prop) sts :
  (forall es, R es es) ->
  (forall a b c, R a b -> R b c -> R a c) ->
  (forall p es, R (F p es) es) ->
  forall h p, R (TAState.next (deref (sweep F h sts) p)) (TAState.next (deref h p)).
Proof.
  intros Hrefl Htrans HF. induction sts as [|q sts IH]; intros h p; [apply Hrefl|].
  rewrite sweep_cons. eapply Htrans; [apply IH|].
  destruct (decide (p = q)) as [->|Hne].
  - rewrite setNext_same. destruct (decide (q < length h)); simpl; [apply HF|].
    rewrite deref_None by lia. apply Hrefl.
  - rewrite (deref_ext _ _ _ (setNext_other _ _ _ _ Hne)). apply Hrefl.
Qed.

Lemma sweep_fixed sts :
  forall h,
    (forall p, In p sts ->
               F p (TAState.next (deref h p)) = TAState.next (deref h p)) ->
    sweep F h sts = h.
Proof.
  induction sts as [|q sts IH]; intros h Hfix; [reflexivity|].
  rewrite sweep_cons, (Hfix q) by now left. rewrite setNext_id.
  apply IH. intros p Hp. apply Hfix. now right.
Qed.
End SweepFacts.

Section EraseFacts.

Lemma filter_sublist {A} (f : A -> bool) (l : list A) : sublist (List.filter f l) l.
Proof.
  induction l as [|a l IH]; simpl; [constructor|].
  destruct (f a); [now apply sublist_skip|now apply sublist_cons].
Qed.

Lemma filter_all {A} (f : A -> bool) (l : list A) :
  (forall a, In a l -> f a = true) -> List.filter f l = l.
Proof.
  induction l as [|a l IH]; intros Hall; simpl; [reflexivity|].
  rewrite (Hall a) by now left. f_equal. apply IH. intros b Hb. apply Hall. now right.
Qed.

Lemma eraseFrom_cons keep e es :
  eraseFrom keep (e :: es)
  = match keep (fst e) with
    | None => eraseFrom keep es
    | Some kept =>
        match List.filter kept (snd e) with
        | [] => eraseFrom keep es
        | t :: ts => (fst e, t :: ts) :: eraseFrom keep es
        end
    end.
Proof.
  unfold eraseFrom. simpl. destruct (keep (fst e)) as [kept|]; [|reflexivity].
  now destruct (List.filter kept (snd e)).
Qed.

Lemma eraseFrom_In keep es action ts' :
  In (action, ts') (eraseFrom keep es) ->
  ts' <> [] /\
  exists ts kept,
    In (action, ts) es /\ keep action = Some kept /\ ts' = List.filter kept ts.
Proof.
  induction es as [|[a ts] es IH]; [intros []|].
  rewrite eraseFrom_cons. simpl.
  assert (In (action, ts') (eraseFrom keep es) ->
          ts' <> [] /\
          exists ts0 kept,
            ((a, ts) = (action, ts0) \/ In (action, ts0) es) /\
            keep action = Some kept /\ ts' = List.filter kept ts0) as Hrest.
  { intros Hin. destruct (IH Hin) as (Hne & ts0 & kept & H1 & H2 & H3).
    split; [assumption|]. exists ts0, kept. auto. }
  destruct (keep a) as [kept|] eqn:Hkeep; [|exact Hrest].
  destruct (List.filter kept ts) as [|t0 l] eqn:Hf; [exact Hrest|].
  intros [[= <- <-]|Hin]; [|now apply Hrest].
  split; [discriminate|]. exists ts, kept. auto.
Qed.

Lemma eraseFrom_actions keep es :
  sublist (map fst (eraseFrom keep es)) (map fst es).
Proof.
  induction es as [|e es IH]; [constructor|].
  rewrite eraseFrom_cons. simpl.
  destruct (keep (fst e)) as [kept|]; [|now apply sublist_cons].
  destruct (List.filter kept (snd e)); [now apply sublist_cons|].
  simpl. now apply sublist_skip.
Qed.

Lemma eraseFrom_pruned keep es : prunedFrom (eraseFrom keep es) es.
Proof.
  split; [apply eraseFrom_actions|].
  intros action ts' Hin.
  destruct (eraseFrom_In _ _ _ _ Hin) as (_ & ts & kept & Hts & _ & ->).
  exists ts. split; [assumption|apply filter_sublist].
Qed.

Lemma eraseFrom_id keep es :
  (forall action ts,
      In (action, ts) es ->
      ts <> [] /\
      exists kept, keep action = Some kept /\ forall t, In t ts -> kept t = true) ->
  eraseFrom keep es = es.
Proof.
  induction es as [|[a ts] es IH]; intros Hall; [reflexivity|].
  rewrite eraseFrom_cons. simpl.
  destruct (Hall a ts (or_introl eq_refl)) as (Hne & kept & -> & Hkept).
  rewrite (filter_all _ _ Hkept).
  destruct ts as [|t ts]; [congruence|]. f_equal.
  apply IH. intros action ts' Hin. apply Hall. now right.
Qed.

Lemma eraseFrom_idempotent keep es :
  eraseFrom keep (eraseFrom keep es) = eraseFrom keep es.
Proof.
  apply eraseFrom_id. intros action ts' Hin.
  destruct (eraseFrom_In _ _ _ _ Hin) as (Hne & ts & kept & _ & Hkeep & ->).
  split; [assumption|]. exists kept. split; [assumption|].
  intros t Ht. now apply filter_In in Ht.
Qed.

Lemma prunedFrom_refl es : prunedFrom es es.
Proof. split; [reflexivity|]. intros action ts Hin. exists ts. split; [assumption|reflexivity]. Qed.

Lemma prunedFrom_trans a b c : prunedFrom a b -> prunedFrom b c -> prunedFrom a c.
Proof.
  intros [Hs1 H1] [Hs2 H2]. split; [now transitivity (map fst b)|].
  intros action ts Hin. destruct (H1 _ _ Hin) as (ts1 & Hin1 & Hsub1).
  destruct (H2 _ _ Hin1) as (ts2 & Hin2 & Hsub2).
  exists ts2. split; [assumption|now transitivity ts1].
Qed.

Lemma prunedFrom_nil es : prunedFrom [] es.
Proof. split; [apply sublist_nil_l|intros ? ? []]. Qed.

Lemma restrictEntries_pruned lt p es : prunedFrom (restrictEntries lt p es) es.
Proof.
  unfold restrictEntries. destruct (lt !! p); [apply eraseFrom_pruned|apply prunedFrom_nil].
Qed.

Lemma restrictEntries_idempotent lt p es :
  restrictEntries lt p (restrictEntries lt p es) = restrictEntries lt p es.
Proof.
  unfold restrictEntries. destruct (lt !! p); [apply eraseFrom_idempotent|reflexivity].
Qed.

Lemma restrictState_setNext lt h p :
  restrictState lt h p = setNext h p (restrictEntries lt p (TAState.next (deref h p))).
Proof. unfold restrictState, restrictEntries. now destruct (lt !! p). Qed.

Lemma fold_restrictState lt sts :
  forall h, fold_left (restrictState lt) sts h = sweep (restrictEntries lt) h sts.
Proof.
  induction sts as [|p sts IH]; intros h; [reflexivity|].
  rewrite sweep_cons. simpl. now rewrite restrictState_setNext, IH.
Qed.
End EraseFacts.

Section LiveFacts.

Lemma insertTransition_In t t0 set :
  In t (insertTransition t0 set) -> t = t0 \/ In t set.
Proof.
  unfold insertTransition. destruct (existsb _ set); [auto|].
  intros Hin. apply in_app_or in Hin as [Hin|[<-|[]]]; auto.
Qed.

Lemma liveNext_fold live :
  forall (m : gmap Alphabet (list TATransition)) action set t,
    fold_left
      (fun liveNextTransitions edge =>
         match liveNextTransitions !! fst edge with
         | None => <[fst edge := [snd edge]]> liveNextTransitions
         | Some set =>
             <[fst edge := insertTransition (snd edge) set]> liveNextTransitions
         end) live m !! action = Some set ->
    In t set ->
    (exists set0, m !! action = Some set0 /\ In t set0) \/ In (action, t) live.
Proof.
  induction live as [|[a0 t0] live IH]; intros m action set t Hset Hin; simpl in *.
  - left. eauto.
  - destruct (IH _ _ _ _ Hset Hin) as [(set1 & Hm1 & Hin1)|Hl]; [|auto].
    destruct (decide (action = a0)) as [->|Hne].
    + destruct (m !! a0) as [set0|] eqn:Hm0;
        rewrite lookup_insert_eq in Hm1; injection Hm1 as <-.
      * apply insertTransition_In in Hin1 as [->|Hin1]; [auto|].
        left. eauto.
      * destruct Hin1 as [->|[]]. auto.
    + left. exists set1. split; [|assumption].
      destruct (m !! a0); rewrite lookup_insert_ne in Hm1 by auto; assumption.
Qed.

Lemma liveNext_In live action set t :
  liveNext live !! action = Some set -> In t set -> In (action, t) live.
Proof.
  intros Hset Hin.
  destruct (liveNext_fold live ∅ action set t Hset Hin) as [(set0 & Hm & _)|Hl];
    [|assumption].
  rewrite lookup_empty in Hm. discriminate.
Qed.

Lemma recordEdges_inner (q : StatePtr) (action : Alphabet)
      (edges : list (TATransition * nat)) :
  forall (lt : LiveTransitions) p l x,
    fold_left
      (fun liveTransitions edge =>
         <[q := default [] (liveTransitions !! q) ++ [(action, fst edge)]]>
           liveTransitions) edges lt !! p = Some l ->
    In x l ->
    (exists l0, lt !! p = Some l0 /\ In x l0) \/
    (q = p /\ exists edge, In edge edges /\ x = (action, fst edge)).
Proof.
  induction edges as [|e edges IH]; intros lt p l x Hl Hx; simpl in *.
  - left. eauto.
  - destruct (IH _ _ _ _ Hl Hx) as [(l1 & Hl1 & Hx1)|(-> & edge & He & ->)].
    + destruct (decide (p = q)) as [->|Hne].
      * rewrite lookup_insert_eq in Hl1. injection Hl1 as <-.
        apply in_app_or in Hx1 as [Hx1|[<-|[]]].
        -- left. destruct (lt !! q) as [l0|]; [eauto|destruct Hx1].
        -- right. split; [reflexivity|]. exists e. auto.
      * rewrite lookup_insert_ne in Hl1 by auto. left. eauto.
    + right. split; [reflexivity|]. exists edge. auto.
Qed.

Lemma recordEdges_outer state actions :
  forall (lt : LiveTransitions) p l x,
    fold_left
      (fun liveTransitions action =>
         fold_left
           (fun liveTransitions edge =>
              <[ZAState.taState state :=
                  default [] (liveTransitions !! ZAState.taState state)
                  ++ [(ascii_of_nat action, fst edge)]]> liveTransitions)
           (ZAState.next state action) liveTransitions)
      actions lt !! p = Some l ->
    In x l ->
    (exists l0, lt !! p = Some l0 /\ In x l0) \/
    (ZAState.taState state = p /\
     exists n edge, In n actions /\ In edge (ZAState.next state n) /\
                    x = (ascii_of_nat n, fst edge)).
Proof.
  induction actions as [|n actions IH]; intros lt p l x Hl Hx; simpl in *.
  - left. eauto.
  - destruct (IH _ _ _ _ Hl Hx) as [(l1 & Hl1 & Hx1)|(Hp & m & edge & Hm & He & ->)].
    + destruct (recordEdges_inner _ _ _ _ _ _ _ Hl1 Hx1)
        as [?|(Hp & edge & He & ->)]; [auto|].
      right. split; [assumption|]. exists n, edge. auto.
    + right. split; [assumption|]. exists m, edge. auto.
Qed.

Lemma collectLive_fold zaStates :
  forall (live : gset StatePtr * LiveTransitions) p,
    let live' :=
      fold_left
        (fun live state =>
           let liveStates := {[ZAState.taState state]} ∪ fst live in
           let liveTransitions :=
             match snd live !! ZAState.taState state with
             | None => <[ZAState.taState state := []]> (snd live)
             | Some _ => snd live
             end in
           (liveStates, recordEdges state liveTransitions))
        zaStates live in
    (p ∈ fst live' <->
     p ∈ fst live \/ exists state, In state zaStates /\ ZAState.taState state = p) /\
    (forall l action t,
        snd live' !! p = Some l -> In (action, t) l ->
        (exists l0, snd live !! p = Some l0 /\ In (action, t) l0) \/
        edgeOf zaStates p action t).
Proof.
  induction zaStates as [|z zaStates IH]; intros live p; simpl.
  - split; [|intros l action t Hl Hin; left; eauto].
    split; [auto|]. intros [?|(? & [] & _)]. assumption.
  - match goal with
    | |- context [fold_left _ zaStates ?acc] => destruct (IH acc p) as [Hs Ht]
    end.
    simpl in Hs, Ht. split.
    + rewrite Hs, elem_of_union, elem_of_singleton. split.
      * intros [[->|?]|(state & Hin & Hp)]; eauto.
      * intros [?|(state & [<-|Hin] & Hp)]; eauto.
    + intros l action t Hl Hin.
      destruct (Ht _ _ _ Hl Hin) as [(l1 & Hl1 & Hin1)|(state & n & edge & H1 & H2)];
        [|right; exists state, n, edge; split; [now right|assumption]].
      destruct (recordEdges_outer _ _ _ _ _ _ Hl1 Hin1)
        as [(l0 & Hl0 & Hin0)|(Hp & n & edge & Hn & He & [= -> ->])].
      * destruct (snd live !! ZAState.taState z) eqn:Hz; [left; eauto|].
        destruct (decide (p = ZAState.taState z)) as [->|Hne].
        -- rewrite lookup_insert_eq in Hl0. injection Hl0 as <-. destruct Hin0.
        -- rewrite lookup_insert_ne in Hl0 by auto. left. eauto.
      * right. exists z, n, edge. apply in_seq in Hn.
        split; [now left|]. split; [assumption|]. split; [lia|]. auto.
Qed.

Lemma collectLive_states zaStates p :
  p ∈ fst (collectLive zaStates) <->
  exists state, In state zaStates /\ ZAState.taState state = p.
Proof.
  destruct (collectLive_fold zaStates (∅, ∅) p) as [Hs _].
  unfold collectLive. rewrite Hs. simpl. split; [|auto].
  intros [Hin|?]; [|assumption]. now apply not_elem_of_empty in Hin.
Qed.

Lemma collectLive_transitions zaStates p l action t :
  snd (collectLive zaStates) !! p = Some l ->
  In (action, t) l ->
  edgeOf zaStates p action t.
Proof.
  intros Hl Hin.
  destruct (collectLive_fold zaStates (∅, ∅) p) as [_ Ht].
  destruct (Ht _ _ _ Hl Hin) as [(l0 & Hl0 & _)|?]; [|assumption].
  simpl in Hl0. rewrite lookup_empty in Hl0. discriminate.
Qed.

Lemma restrictEntries_exercised zaStates p es action ts t :
  In (action, ts) (restrictEntries (snd (collectLive zaStates)) p es) ->
  In t ts ->
  exercised zaStates p action t.
Proof.
  unfold restrictEntries.
  destruct (snd (collectLive zaStates) !! p) as [live|] eqn:Hlive; [|intros []].
  intros Hin Ht.
  destruct (eraseFrom_In _ _ _ _ Hin) as (_ & ts0 & kept & _ & Hkeep & ->).
  destruct (liveNext live !! action) as [set|] eqn:Hset; [|discriminate].
  injection Hkeep as <-. apply filter_In in Ht as [_ Hfound].
  unfold findTransition in Hfound.
  apply existsb_exists in Hfound as (t0 & Hin0 & Heq).
  pose proof (liveNext_In _ _ _ _ Hset Hin0) as Hedge.
  destruct (collectLive_transitions _ _ _ _ _ Hlive Hedge)
    as (state & n & edge & H1 & H2 & H3 & H4 & H5 & ->).
  exists state, n, edge. auto 10.
Qed.
End LiveFacts.

Section SimplifyFacts.
Variable zaStates : list ZAState.t.

Abbreviation liveStates := (fst (collectLive zaStates)).
Abbreviation liveTransitions := (snd (collectLive zaStates)).

Lemma simplify_cases h ta :
  exists h1 sts inits,
    simplifyWithZones zaStates h ta
    = (sweep (restrictEntries liveTransitions) h1 sts, TimedAutomaton.mk sts inits) /\
    ((size liveStates = TimedAutomaton.stateSize ta /\
      h1 = h /\ sts = TimedAutomaton.states ta /\
      inits = TimedAutomaton.initialStates ta) \/
     (size liveStates <> TimedAutomaton.stateSize ta /\
      sts = List.filter (isLive liveStates) (TimedAutomaton.states ta) /\
      inits = List.filter (isLive liveStates) (TimedAutomaton.initialStates ta) /\
      h1 = sweep (fun _ => eraseDeadTargets liveStates) h sts)).
Proof.
  unfold simplifyWithZones, removeDeadStates.
  destruct (Nat.eqb_spec (size liveStates) (TimedAutomaton.stateSize ta)) as [Heq|Hne];
    simpl; rewrite fold_restrictState.
  - exists h, (TimedAutomaton.states ta), (TimedAutomaton.initialStates ta).
    split; [now destruct ta|]. left. auto.
  - eexists _, _, _. split; [reflexivity|]. right. auto.
Qed.

Lemma isLive_iff p :
  isLive liveStates p = true <->
  exists state, In state zaStates /\ ZAState.taState state = p.
Proof. unfold isLive. now rewrite bool_decide_eq_true, collectLive_states. Qed.

Lemma eraseDeadTargets_targetsLive es :
  targetsLive liveStates (eraseDeadTargets liveStates es).
Proof.
  intros action ts t Hin Ht. unfold eraseDeadTargets in Hin.
  destruct (eraseFrom_In _ _ _ _ Hin) as (_ & ts0 & kept & _ & [= <-] & ->).
  now apply filter_In in Ht.
Qed.

Lemma targetsLive_pruned es' es :
  prunedFrom es' es -> targetsLive liveStates es -> targetsLive liveStates es'.
Proof.
  intros [_ Hp] Hlive action ts' t Hin Ht.
  destruct (Hp _ _ Hin) as (ts & Hts & Hsub).
  eapply Hlive; [eassumption|]. eapply In_sublist; eassumption.
Qed.

Lemma restrictEntries_noEmpty p es :
  noEmptyVector (restrictEntries liveTransitions p es).
Proof.
  unfold restrictEntries. intros action ts Hin.
  destruct (liveTransitions !! p); [|destruct Hin].
  now destruct (eraseFrom_In _ _ _ _ Hin).
Qed.

Lemma filter_filter {A} (f : A -> bool) (l : list A) :
  List.filter f (List.filter f l) = List.filter f l.
Proof. apply filter_all. intros a Ha. now apply filter_In in Ha. Qed.
End SimplifyFacts.

(** X11.  [simplifyWithZones] only removes: the states and the initial
    states that are left are sublists of the old ones, the arena keeps its
    size, every state keeps [isMatch], the states that were dropped or were
    never in [states] are not touched, and every table is what is left of
    the old table after erasing entries and transitions. *)
Theorem simplifyWithZones_only_removes :
  forall (zaStates : list ZAState.t) (h : heap) (ta : TimedAutomaton.t),
    let r := simplifyWithZones zaStates h ta in
    sublist (TimedAutomaton.states (snd r)) (TimedAutomaton.states ta) /\
    sublist (TimedAutomaton.initialStates (snd r)) (TimedAutomaton.initialStates ta) /\
    length (fst r) = length h /\
    (forall p, TAState.isMatch (deref (fst r) p) = TAState.isMatch (deref h p)) /\
    (forall p, ~ In p (TimedAutomaton.states (snd r)) -> fst r !! p = h !! p) /\
    (forall p, prunedFrom (TAState.next (deref (fst r) p)) (TAState.next (deref h p))).
Proof.
  intros zaStates h ta r. subst r.
  destruct (simplify_cases zaStates h ta) as (h1 & sts & inits & -> & Hcase). simpl.
  destruct Hcase as [(_ & -> & -> & ->)|(_ & Hsts & Hinits & Hh1)].
  - split; [reflexivity|]. split; [reflexivity|].
    split; [apply sweep_length|]. split; [intros p; apply sweep_isMatch|].
    split; [intros p Hp; now apply sweep_other|].
    intros p. apply (sweep_related _ prunedFrom);
      auto using prunedFrom_refl, restrictEntries_pruned.
    intros a b c. apply prunedFrom_trans.
  - split; [rewrite Hsts; apply filter_sublist|].
    split; [rewrite Hinits; apply filter_sublist|].
    split; [now rewrite sweep_length, Hh1, sweep_length|].
    split; [intros p; now rewrite sweep_isMatch, Hh1, sweep_isMatch|].
    split.
    + intros p Hp. rewrite sweep_other, Hh1 by assumption. now apply sweep_other.
    + intros p. eapply prunedFrom_trans.
      * apply (sweep_related _ prunedFrom);
          auto using prunedFrom_refl, restrictEntries_pruned.
        intros a b c. apply prunedFrom_trans.
      * rewrite Hh1. apply (sweep_related _ prunedFrom); auto using prunedFrom_refl.
        -- intros a b c. apply prunedFrom_trans.
        -- intros q es. apply eraseFrom_pruned.
Qed.

(** X12.  In a state that is left, no vector is empty, and every
    transition equals, by [operator==], a transition that labels an edge,
    under the same action and with an action code below [CHAR_MAX], of a
    live zone state standing for that state. *)
Theorem simplifyWithZones_keeps_exercised :
  forall (zaStates : list ZAState.t) (h : heap) (ta : TimedAutomaton.t)
         p action ts,
    let r := simplifyWithZones zaStates h ta in
    In p (TimedAutomaton.states (snd r)) ->
    In (action, ts) (TAState.next (deref (fst r) p)) ->
    ts <> [] /\ forall t, In t ts -> exercised zaStates p action t.
Proof.
  intros zaStates h ta p action ts r. subst r.
  destruct (simplify_cases zaStates h ta) as (h1 & sts & inits & -> & _). simpl.
  intros Hp Hin.
  pose proof (sweep_established (restrictEntries (snd (collectLive zaStates)))
                (fun q es => forall a l, In (a, l) es ->
                                         l <> [] /\
                                         forall t, In t l -> exercised zaStates q a t)
                sts) as Hest.
  simpl in Hest. eapply Hest; try eassumption.
  - intros q es a l Hl. split; [eapply restrictEntries_noEmpty; eassumption|].
    intros t Ht. eapply restrictEntries_exercised; eassumption.
  - intros q a l [].
Qed.

(** X13.  If every live zone state stands for a state of the automaton and
    every transition of the automaton leads to one of its states, then
    after [simplifyWithZones] every transition of a state that is left
    leads to a state that is left. *)
Theorem simplifyWithZones_no_dangling_target :
  forall (zaStates : list ZAState.t) (h : heap) (ta : TimedAutomaton.t),
    (forall state, In state zaStates ->
                   In (ZAState.taState state) (TimedAutomaton.states ta)) ->
    (forall p action ts t,
        In p (TimedAutomaton.states ta) ->
        In (action, ts) (TAState.next (deref h p)) -> In t ts ->
        In (TATransition.target t) (TimedAutomaton.states ta)) ->
    let r := simplifyWithZones zaStates h ta in
    forall p action ts t,
      In p (TimedAutomaton.states (snd r)) ->
      In (action, ts) (TAState.next (deref (fst r) p)) -> In t ts ->
      In (TATransition.target t) (TimedAutomaton.states (snd r)).
Proof.
  intros zaStates h ta Hza Htargets r p action ts t. subst r.
  destruct (simplify_cases zaStates h ta) as (h1 & sts & inits & -> & Hcase). simpl.
  intros Hp Hin Ht.
  assert (prunedFrom (TAState.next (deref (sweep (restrictEntries
                                                    (snd (collectLive zaStates)))
                                                 h1 sts) p))
                     (TAState.next (deref h1 p))) as Hpruned.
  { apply (sweep_related _ prunedFrom); auto using prunedFrom_refl, restrictEntries_pruned.
    intros a b c. apply prunedFrom_trans. }
  destruct Hcase as [(_ & -> & -> & ->)|(_ & Hsts & Hinits & Hh1)].
  - destruct Hpruned as [_ Hpr]. destruct (Hpr _ _ Hin) as (ts0 & Hts0 & Hsub).
    eapply Htargets; [exact Hp|exact Hts0|]. eapply In_sublist; eassumption.
  - assert (targetsLive (fst (collectLive zaStates)) (TAState.next (deref h1 p)))
      as Hlive.
    { rewrite Hh1.
      apply (sweep_established (fun _ => eraseDeadTargets (fst (collectLive zaStates)))
                               (fun _ => targetsLive (fst (collectLive zaStates))));
        [intros q es; apply eraseDeadTargets_targetsLive
        |intros q a l u []|assumption]. }
    pose proof (targetsLive_pruned _ _ _ Hpruned Hlive _ _ _ Hin Ht) as Htl.
    rewrite Hsts. apply filter_In. split; [|assumption].
    apply isLive_iff in Htl as (state & Hstate & <-). now apply Hza.
Qed.

(** X14.  If the states of the automaton are pairwise different and every
    live zone state stands for one of them, the states that are left are
    exactly those some live zone state stands for. *)
Theorem simplifyWithZones_states_are_live :
  forall (zaStates : list ZAState.t) (h : heap) (ta : TimedAutomaton.t),
    List.NoDup (TimedAutomaton.states ta) ->
    (forall state, In state zaStates ->
                   In (ZAState.taState state) (TimedAutomaton.states ta)) ->
    forall p,
      In p (TimedAutomaton.states (snd (simplifyWithZones zaStates h ta))) <->
      exists state, In state zaStates /\ ZAState.taState state = p.
Proof.
  intros zaStates h ta Hnodup Hza p.
  destruct (simplify_cases zaStates h ta) as (h1 & sts & inits & -> & Hcase). simpl.
  destruct Hcase as [(Hsize & _ & -> & _)|(_ & -> & _)].
  - split; [|intros (state & Hin & <-); now apply Hza].
    intros Hp. apply collectLive_states.
    assert (fst (collectLive zaStates)
            = list_to_set (TimedAutomaton.states ta)) as ->.
    { apply set_subseteq_size_eq.
      - intros q Hq. apply elem_of_list_to_set, list_elem_of_In.
        apply collectLive_states in Hq as (state & Hin & <-). now apply Hza.
      - rewrite size_list_to_set by now apply NoDup_ListNoDup.
        unfold TimedAutomaton.stateSize in Hsize. lia. }
    now apply elem_of_list_to_set, list_elem_of_In.
  - rewrite filter_In, isLive_iff. split; [tauto|].
    intros (state & Hin & <-). split; [now apply Hza|eauto].
Qed.

(** X15.  Applying [simplifyWithZones] again with the same live zone
    states changes nothing. *)
Theorem simplifyWithZones_idempotent :
  forall (zaStates : list ZAState.t) (h : heap) (ta : TimedAutomaton.t),
    let r := simplifyWithZones zaStates h ta in
    simplifyWithZones zaStates (fst r) (snd r) = r.
Proof.
  intros zaStates h ta r. subst r.
  destruct (simplify_cases zaStates h ta) as (h1 & sts & inits & -> & Hcase). simpl.
  set (LT := snd (collectLive zaStates)). set (L := fst (collectLive zaStates)).
  set (h2 := sweep (restrictEntries LT) h1 sts).
  assert (sweep (restrictEntries LT) h2 sts = h2) as Hfix2.
  { apply sweep_fixed. intros p Hp.
    apply (sweep_established (restrictEntries LT)
                             (fun q es => restrictEntries LT q es = es)); try assumption.
    - intros q es. apply restrictEntries_idempotent.
    - intros q. unfold restrictEntries. now destruct (LT !! q). }
  destruct (simplify_cases zaStates h2 (TimedAutomaton.mk sts inits))
    as (h1' & sts' & inits' & -> & Hcase').
  fold LT in Hcase' |- *. fold L in Hcase'. simpl in Hcase'.
  destruct Hcase' as [(_ & -> & -> & ->)|(Hsize' & Hsts' & Hinits' & Hh1')].
  { now rewrite Hfix2. }
  destruct Hcase as [(Hsize & _ & -> & _)|(_ & Hsts & Hinits & Hh1)].
  { exfalso. apply Hsize'. exact Hsize. }
  fold L in Hsts, Hinits, Hh1.
  assert (sts' = sts) as -> by (rewrite Hsts', Hsts; apply filter_filter).
  assert (inits' = inits) as -> by (rewrite Hinits', Hinits; apply filter_filter).
  assert (h1' = h2) as ->; [|now rewrite Hfix2].
  rewrite Hh1'. apply sweep_fixed. intros p Hp. apply eraseFrom_id.
  intros action ts Hin. split.
  - eapply (sweep_established (restrictEntries LT) (fun _ => noEmptyVector) sts);
      [intros q es; apply restrictEntries_noEmpty|intros q a l []| |];
      eassumption.
  - eexists. split; [reflexivity|]. intros t Ht.
    assert (targetsLive L (TAState.next (deref h2 p))) as Hlive; [|eapply Hlive; eassumption].
    eapply targetsLive_pruned.
    + apply (sweep_related _ prunedFrom); auto using prunedFrom_refl, restrictEntries_pruned.
      intros a b c. apply prunedFrom_trans.
    + rewrite Hh1.
      apply (sweep_established (fun _ => eraseDeadTargets L) (fun _ => targetsLive L));
        [intros q es; apply eraseDeadTargets_targetsLive
        |intros q a l u []|assumption].
Qed.

(** ** [addUpperBoundForUnobservableTransitions] *)

Lemma boundFound_absent UNOBSERVABLE addUpperBound entries :
  (forall entry, In entry entries -> fst entry <> UNOBSERVABLE) ->
  boundFound UNOBSERVABLE addUpperBound entries = entries.
Proof.
  induction entries as [|e es IH]; intros Hno; simpl; [reflexivity|].
  destruct (Ascii.eqb_spec (fst e) UNOBSERVABLE) as [Heq|_].
  - exfalso. apply (Hno e); [now left|assumption].
  - f_equal. apply IH. intros e' He'. apply Hno. now right.
Qed.

Lemma boundFound_present UNOBSERVABLE addUpperBound pre transitions post :
  (forall entry, In entry pre -> fst entry <> UNOBSERVABLE) ->
  boundFound UNOBSERVABLE addUpperBound (pre ++ (UNOBSERVABLE, transitions) :: post)
  = pre ++ (UNOBSERVABLE, boundGuards addUpperBound transitions) :: post.
Proof.
  induction pre as [|e pre IH]; intros Hno; simpl.
  - now rewrite Ascii.eqb_refl.
  - destruct (Ascii.eqb_spec (fst e) UNOBSERVABLE) as [Heq|_].
    + exfalso. apply (Hno e); [now left|assumption].
    + f_equal. apply IH. intros e' He'. apply Hno. now right.
Qed.

(** X16.  [addUpperBoundForUnobservableTransitions] rewrites nothing but
    guards of the entry of the unobservable action: without such an entry
    the arena is unchanged; with one, its transitions keep their order,
    targets and reset maps, each guard [g] becomes [addUpperBound g], and
    the entries of the other actions, [isMatch] and the other states stay
    as they are. *)
Theorem addUpperBound_touches_unobservable_guards_only :
  forall (UNOBSERVABLE : Alphabet) (addUpperBound : Guard -> Guard)
         (h : heap) (p : StatePtr),
    let h' := addUpperBoundForUnobservableTransitions UNOBSERVABLE addUpperBound h p in
    length h' = length h /\
    (forall q, q <> p -> h' !! q = h !! q) /\
    TAState.isMatch (deref h' p) = TAState.isMatch (deref h p) /\
    ((forall entry, In entry (TAState.next (deref h p)) ->
                    fst entry <> UNOBSERVABLE) ->
     h' = h) /\
    (forall pre transitions post,
        TAState.next (deref h p) = pre ++ (UNOBSERVABLE, transitions) :: post ->
        (forall entry, In entry pre -> fst entry <> UNOBSERVABLE) ->
        TAState.next (deref h' p)
        = pre ++ (UNOBSERVABLE,
                  map (fun t => TATransition.mk (TATransition.target t)
                                                (TATransition.resetVars t)
                                                (addUpperBound (TATransition.guard t)))
                      transitions) :: post).
Proof.
  intros UNOBSERVABLE addUpperBound h p h'. subst h'.
  unfold addUpperBoundForUnobservableTransitions.
  split; [apply setNext_length|]. split; [intros q Hq; now apply setNext_other|].
  split.
  { rewrite setNext_same. destruct (decide (p < length h)); [reflexivity|].
    now rewrite deref_None by lia. }
  split.
  - intros Hno. rewrite boundFound_absent by assumption. apply setNext_id.
  - intros pre transitions post Hnext Hpre.
    rewrite setNext_same. destruct (decide (p < length h)) as [Hlt|Hge].
    + simpl. rewrite Hnext. now apply boundFound_present.
    + rewrite deref_None in Hnext by lia. simpl in Hnext.
      now destruct pre.
Qed.
(** ** Concrete runs of the handler *)

#[local] Existing Instance IntervalGuards.ops.
#[local] Existing Instance BoxNeighbor.ops.



Lemma handleOne_emits_only_strictly_weaker_witness :
  @isWeaker IntervalGuards.ops [clockGe 0 1] [clockGe 0 2] = true /\
  @isWeaker IntervalGuards.ops [clockGe 0 2] [clockGe 0 1] = false.
Proof.
  pose (t := TATransition.mk 1 [] [clockGe 0 2]).
  pose (neighbor := BoxNeighbor.mk [clockGe 0 1] 1 [0]).
  destruct (proj2 (handleOne_emits_only_strictly_weaker
                     IntervalGuards.ops BoxNeighbor.t BoxNeighbor.ops
                     (arenaWith [t]) neighbor t neighbor [] false true)
                  (TATransition.mk 1 [] [clockGe 0 1]) eq_refl)
    as (_ & _ & Hweaker & Hstrict & _).
  split; [exact Hweaker|exact Hstrict].
Defined.

Lemma relaxedGuard_has_no_new_upper_bound_witness :
  let t := TATransition.mk 1 [] [clockGe 0 2] in
  let neighbor := BoxNeighbor.mk [clockGe 0 1; clockLe 0 5] 1 [0] in
  relaxedGuard neighbor t = [clockGe 0 1].
Proof.
  intros t neighbor.
  refine (proj1 (relaxedGuard_has_no_new_upper_bound
                   IntervalGuards.ops BoxNeighbor.t BoxNeighbor.ops
                   (arenaWith [t]) neighbor t neighbor [] false true _)).
  intros constraint [<-|[]]. reflexivity.
Defined.

Lemma handleOne_internal_propagates_successor_witness :
  let t := TATransition.mk 1 [(1, RConst 0)] [clockGe 0 2] in
  let neighbor := BoxNeighbor.mk [clockGe 0 1] 1 [0] in
  let neighborSuccessor := BoxNeighbor.mk [clockGe 0 1] 2 [0] in
  result (@handleOne IntervalGuards.ops BoxNeighbor.t BoxNeighbor.ops
            (arenaWith [t]) neighbor t neighborSuccessor [] false true)
  = Some (1, neighborSuccessor).
Proof.
  intros t neighbor neighborSuccessor.
  rewrite (handleOne_internal_propagates_successor
             IntervalGuards.ops BoxNeighbor.t BoxNeighbor.ops
             (arenaWith [t]) neighbor t neighborSuccessor [] false true 0
             eq_refl eq_refl eq_refl (Qeq_refl 0)).
  reflexivity.
Defined.

Lemma handleOne_stops_when_imprecision_resolved_witness :
  let t := TATransition.mk 1 [(0, RConst 3); (1, RClock 2)] [clockGe 0 2] in
  let neighbor := BoxNeighbor.mk [clockGe 0 1] 1 [0] in
  result (@handleOne IntervalGuards.ops BoxNeighbor.t BoxNeighbor.ops
            (arenaWith [t]) neighbor t neighbor [] false true)
  = None.
Proof.
  intros t neighbor.
  apply (handleOne_stops_when_imprecision_resolved
           IntervalGuards.ops BoxNeighbor.t BoxNeighbor.ops);
    try reflexivity.
  intros clock [<-|[]]. split.
  - exists 3%Q. split; [left; reflexivity|reflexivity].
  - intros reset [<-|[<-|[]]]; discriminate.
Defined.

(** ** Concrete runs for the further statements *)

Lemma mergeNondeterministicBranching_frame_witness :
  let t1 := TATransition.mk 1 [] [clockLe 0 2] in
  let t2 := TATransition.mk 1 [] [clockGe 0 1; clockLe 0 3] in
  let merged := TATransition.mk 1 [] [clockLe 0 3] in
  mergeNondeterministicBranching SpecModel.impreciseConstantAssignSize
    (arenaWith [t1; t2]) false 0 = Done (arenaWith [merged]) /\
  map fst (TAState.next (deref (arenaWith [merged]) 0))
  = map fst (TAState.next (deref (arenaWith [t1; t2]) 0)).
Proof.
  intros t1 t2 merged. split; [reflexivity|].
  exact (proj1 (proj2 (proj2 (proj2
           (mergeNondeterministicBranching_frame IntervalGuards.ops
              SpecModel.impreciseConstantAssignSize (arenaWith [t1; t2]) false 0
              (arenaWith [merged]) eq_refl))))).
Defined.

Lemma merge_on_deterministic_state_witness :
  let t1 := TATransition.mk 1 [] [clockLt 0 1] in
  let t2 := TATransition.mk 2 [] [clockGe 0 1] in
  deterministic (deref (arenaWith [t1; t2]) 0) = true /\
  mergeNondeterministicBranching SpecModel.impreciseConstantAssignSize
    (arenaWith [t1; t2]) false 0 = Done (arenaWith [t1; t2]).
Proof.
  intros t1 t2. split; [reflexivity|].
  exact (merge_on_deterministic_state IntervalGuards.ops
           SpecModel.impreciseConstantAssignSize (arenaWith [t1; t2]) false 0
           eq_refl).
Defined.

Lemma handleOne_propagates_only_after_relaxing_witness :
  let t := TATransition.mk 1 [(1, RConst 0)] [clockGe 0 2] in
  let neighbor := BoxNeighbor.mk [clockGe 0 1] 1 [0] in
  let neighborSuccessor := BoxNeighbor.mk [clockGe 0 1] 2 [0] in
  result (handleOne (arenaWith [t]) neighbor t neighborSuccessor [] false true)
  = Some (1, neighborSuccessor) /\
  match_ neighbor t = true /\ accepted neighbor t = true.
Proof.
  intros t neighbor neighborSuccessor. split; [reflexivity|].
  destruct (handleOne_propagates_only_after_relaxing
              IntervalGuards.ops BoxNeighbor.t BoxNeighbor.ops
              (arenaWith [t]) neighbor t neighborSuccessor [] false true
              (1, neighborSuccessor) eq_refl) as (Hm & Ha & _).
  split; assumption.
Defined.

Lemma handleOne_external_decision_witness :
  let t := TATransition.mk 1 [(1, RClock 0)] [clockGe 0 2] in
  let neighbor := BoxNeighbor.mk [clockGe 0 1] 1 [0] in
  result (handleOne (arenaWith [t]) neighbor t neighbor [] false true)
  = Some (1, BoxNeighbor.mk [clockGe 0 1] 0 [0]).
Proof.
  intros t neighbor.
  apply (proj2 (handleOne_external_decision
                  IntervalGuards.ops BoxNeighbor.t BoxNeighbor.ops
                  (arenaWith [t]) neighbor t neighbor [] false true
                  eq_refl eq_refl eq_refl)).
  discriminate.
Defined.

Lemma relax_stops_after_unbounded_match_witness :
  let t := TATransition.mk 1 [] [clockGe 0 2] in
  let neighbor := BoxNeighbor.mk [clockGe 0 1] 1 [0] in
  relax 1 0 neighbor (arenaWith [t]) [] true
  = (arenaWith [t; TATransition.mk 1 [] [clockGe 0 1]], [], true).
Proof.
  intros t neighbor.
  rewrite (relax_stops_after_unbounded_match
             IntervalGuards.ops BoxNeighbor.t BoxNeighbor.ops
             0 0 neighbor (arenaWith [t]) [] true).
  - reflexivity.
  - exists t. split; [left; reflexivity|reflexivity].
  - intros u [<-|[]] _. reflexivity.
Defined.

Lemma run_diverges_without_match_witness :
  let neighbor := BoxNeighbor.mk [clockGe 0 1] 1 [0] in
  snd (run 5 (arenaWith []) [(1, neighbor)]) = false.
Proof.
  intros neighbor.
  refine (proj2 (run_diverges_without_match
                   IntervalGuards.ops BoxNeighbor.t BoxNeighbor.ops
                   1 neighbor (arenaWith []) [] _ 5)).
  intros i t [].
Defined.

Lemma run_keeps_targets_and_resets_witness :
  let t := TATransition.mk 1 [] [clockGe 0 2] in
  let neighbor := BoxNeighbor.mk [clockGe 0 1] 1 [0] in
  let synthesized := TATransition.mk 1 [] [clockGe 0 1] in
  exists s ts t0,
    arenaWith [t] !! 0 = Some s /\
    length (TAState.next s) = 1 /\
    TAState.next s !! 0 = Some ("a"%char, ts) /\
    In t0 ts /\ sameJump synthesized t0.
Proof.
  intros t neighbor synthesized.
  exact (proj2 (run_keeps_targets_and_resets
                  IntervalGuards.ops BoxNeighbor.t BoxNeighbor.ops
                  3 (arenaWith [t]) [(0, neighbor)] 0
                  (TAState.mk true [("a"%char, [t; synthesized])]) 0 "a"%char
                  [t; synthesized] synthesized
                  eq_refl eq_refl (or_intror (or_introl eq_refl)))).
Defined.

Lemma simplifyWithZones_keeps_exercised_witness :
  let tA := TATransition.mk 1 [] [clockLe 0 1] in
  let tB := TATransition.mk 4 [] [clockGe 0 2] in
  simplifyWithZones (zoneStatesWith tA) (arenaWith [tA; tB])
                    (TimedAutomaton.mk [0; 1; 4] [0])
  = (arenaWith [tA], TimedAutomaton.mk [0; 1] [0]) /\
  exercised (zoneStatesWith tA) 0 "a"%char tA.
Proof.
  intros tA tB. split; [vm_compute; reflexivity|].
  refine (proj2 (simplifyWithZones_keeps_exercised
                   (zoneStatesWith tA) (arenaWith [tA; tB])
                   (TimedAutomaton.mk [0; 1; 4] [0]) 0 "a"%char [tA] _ _) tA _).
  - vm_compute. auto.
  - vm_compute. auto.
  - now left.
Defined.

Lemma simplifyWithZones_no_dangling_target_witness :
  let tA := TATransition.mk 1 [] [clockLe 0 1] in
  let tB := TATransition.mk 4 [] [clockGe 0 2] in
  In (TATransition.target tA)
     (TimedAutomaton.states
        (snd (simplifyWithZones (zoneStatesWith tA) (arenaWith [tA; tB])
                                (TimedAutomaton.mk [0; 1; 4] [0])))).
Proof.
  intros tA tB.
  refine (simplifyWithZones_no_dangling_target
            (zoneStatesWith tA) (arenaWith [tA; tB])
            (TimedAutomaton.mk [0; 1; 4] [0]) _ _ 0 "a"%char [tA] tA _ _ _).
  - intros state [<-|[<-|[]]]; simpl; auto.
  - intros p action ts t [<-|[<-|[<-|[]]]]; simpl.
    + intros [[= <- <-]|[]] [<-|[<-|[]]]; simpl; auto.
    + intros [].
    + intros [].
  - vm_compute. auto.
  - vm_compute. auto.
  - now left.
Defined.

Lemma simplifyWithZones_states_are_live_witness :
  let tA := TATransition.mk 1 [] [clockLe 0 1] in
  let tB := TATransition.mk 4 [] [clockGe 0 2] in
  In 1 (TimedAutomaton.states
          (snd (simplifyWithZones (zoneStatesWith tA) (arenaWith [tA; tB])
                                  (TimedAutomaton.mk [0; 1; 4] [0])))).
Proof.
  intros tA tB.
  apply (simplifyWithZones_states_are_live
           (zoneStatesWith tA) (arenaWith [tA; tB])
           (TimedAutomaton.mk [0; 1; 4] [0])).
  - simpl. repeat constructor; simpl; intuition discriminate.
  - intros state [<-|[<-|[]]]; simpl; auto.
  - eexists. split; [right; left; reflexivity|reflexivity].
Defined.
